(** * Escape-time kernels of [lecture.ipynb]: [mandelbrot_python] and [mandelbrot_numpy]

    A shallow embedding of the two Mandelbrot kernels of the lecture
    notebook, and the properties of the escape field they compute.

    - Scalars are IEEE-754 binary64 numbers, taken from the Standard
      Library's executable specification [SpecFloat] (precision 53,
      [emax] 1024, round to nearest even).  Every operation of the source
      is rounded on its own, in the order the source writes it.
    - [np.complex128] is a pair of binary64 numbers with NumPy's
      component formulas for [+], [*] and [**2].
    - A two-dimensional array is its shape and its rows.  The arrays that
      are bound to a name live in a store and are referred to by location,
      so that [z = c] aliases and [z[diverged] = 2] writes in place.  The
      store is unbounded: no call runs out of memory.
    - Python integers are [Z].  The cells of the [int32] array only hold
      values between 0 and 20.
    - The C library's [hypot], which [abs] of a complex scalar calls, is a
      parameter of the development; [hypot_c99] is a correctly rounded
      instance. *)

From Stdlib Require Import ZArith Lia Bool.
From Stdlib Require Import Floats.SpecFloat.
From stdpp Require Import base tactics option list numbers.

Local Open Scope Z_scope.

(* ===================================================================== *)
(** * Binary64 scalars *)
(* ===================================================================== *)

Module F64.

Definition prec : Z := 53.
Definition emax : Z := 1024.

Definition t : Type := spec_float.

Definition add : t -> t -> t := SFadd prec emax.
Definition sub : t -> t -> t := SFsub prec emax.
Definition mul : t -> t -> t := SFmul prec emax.
Definition div : t -> t -> t := SFdiv prec emax.
Definition opp : t -> t := SFopp.
Definition ltb : t -> t -> bool := SFltb.
Definition eqb : t -> t -> bool := SFeqb.

(** [float(n)] for a Python integer [n], and an integer operand promoted to
    [float64] in mixed arithmetic. *)
Definition of_int (n : Z) : t := binary_normalize prec emax n 0 false.

(** The literal [1.5]: [3 * 2^51 * 2^-52]. *)
Definition lit_1_5 : t := S754_finite false 6755399441055744 (-52).

(** Zero of either sign, and the values that are neither infinite nor NaN. *)
Definition is_zero (x : t) : bool :=
  match x with S754_zero _ => true | _ => false end.

Definition is_finite (x : t) : bool :=
  match x with S754_zero _ | S754_finite _ _ _ => true | _ => false end.

End F64.

(* ===================================================================== *)
(** * [np.complex128] *)
(* ===================================================================== *)

Record complex128 : Type := Complex { real : F64.t; imag : F64.t }.

Module C128.

(** A real scalar promoted to complex. *)
Definition of_float (x : F64.t) : complex128 := Complex x (F64.of_int 0).

(** The literal [1j]. *)
Definition lit_1j : complex128 := Complex (F64.of_int 0) (F64.of_int 1).

Definition add (a b : complex128) : complex128 :=
  Complex (F64.add (real a) (real b)) (F64.add (imag a) (imag b)).

(** NumPy's complex product: [(ar*br - ai*bi) + (ar*bi + ai*br)j]. *)
Definition mul (a b : complex128) : complex128 :=
  Complex (F64.sub (F64.mul (real a) (real b)) (F64.mul (imag a) (imag b)))
          (F64.add (F64.mul (real a) (imag b)) (F64.mul (imag a) (real b))).

(** [z**2]: the product of [z] with itself.  (For a scalar [z] that is
    zero NumPy's power returns [0+0j] without multiplying; the product
    differs from that in the sign of a zero at most.) *)
Definition square (z : complex128) : complex128 := mul z z.

(** [z.real**2 + z.imag**2]. *)
Definition norm2 (z : complex128) : F64.t :=
  F64.add (F64.mul (real z) (real z)) (F64.mul (imag z) (imag z)).

Definition is_zero (z : complex128) : bool :=
  F64.is_zero (real z) && F64.is_zero (imag z).

End C128.

(* ===================================================================== *)
(** * Two-dimensional arrays *)
(* ===================================================================== *)

Record ndarray (T : Type) : Type :=
  NdArray { shape : nat * nat; rows : list (list T) }.
Arguments NdArray {T} _ _.
Arguments shape {T} _.
Arguments rows {T} _.

Module Nd.
Section Ops.
Context {T U V : Type}.

(** [np.full(shape, v)] *)
Definition full (sh : nat * nat) (v : T) : ndarray T :=
  NdArray sh (replicate (fst sh) (replicate (snd sh) v)).

(** A unary ufunc. *)
Definition map (f : T -> U) (a : ndarray T) : ndarray U :=
  NdArray (shape a) (fmap (M:=list) (fmap (M:=list) f) (rows a)).

(** A binary ufunc on two arrays of one shape. *)
Definition zip_with (f : T -> U -> V) (a : ndarray T) (b : ndarray U) : ndarray V :=
  NdArray (shape a) (base.zip_with (base.zip_with f) (rows a) (rows b)).

(** A Python index into an axis of length [n]: negative indices count
    from the end, anything outside [-n, n) is out of bounds. *)
Definition norm_index (i : Z) (n : nat) : option nat :=
  let j := if i <? 0 then i + Z.of_nat n else i in
  if (0 <=? j) && (j <? Z.of_nat n) then Some (Z.to_nat j) else None.

(** [a[h, w]] *)
Definition get (a : ndarray T) (h w : Z) : option T :=
  r ← norm_index h (fst (shape a));
  k ← norm_index w (snd (shape a));
  row ← rows a !! r;
  row !! k.

(** [a[h, w] = v] *)
Definition set (a : ndarray T) (h w : Z) (v : T) : option (ndarray T) :=
  r ← norm_index h (fst (shape a));
  k ← norm_index w (snd (shape a));
  Some (NdArray (shape a) (alter (fun row => <[k := v]> row) r (rows a))).
End Ops.

(** [a[mask] = v] for a boolean mask of the shape of [a]. *)
Definition assign_where {T : Type} (mask : ndarray bool) (v : T) (a : ndarray T) : ndarray T :=
  zip_with (fun (m : bool) x => if m then v else x) mask a.

(** The outer sum of a column [ys] of shape [(n, 1)] and a row [xs] of
    shape [(1, m)] under broadcasting: cell [(r, k)] is [f xs[k] ys[r]]. *)
Definition outer {T U V : Type} (f : T -> U -> V) (xs : list T) (ys : list U) : ndarray V :=
  NdArray (length ys, length xs) (fmap (M:=list) (fun y => fmap (M:=list) (fun x => f x y) xs) ys).
End Nd.

(* ===================================================================== *)
(** * The store of arrays, and the monad of the interpreter *)
(* ===================================================================== *)

(** The arrays the kernels bind to names: [complex128] arrays ([c], [z])
    and [int32] arrays ([fractal]).  The [int32] cells only ever hold
    iteration indices below 20 and the value 20, and are kept as [Z]. *)
Inductive object : Type :=
  | CArray (a : ndarray complex128)
  | IArray (a : ndarray Z).

Abbreviation loc := nat (only parsing).
Abbreviation store := (list object) (only parsing).

Inductive exn : Type := IndexError | ValueError | TypeError.

Definition M (A : Type) : Type := store -> exn + (A * store).

Definition ret {A} (a : A) : M A := fun s => inr (a, s).
Definition raise {A} (e : exn) : M A := fun _ => inl e.
Definition bind {A B} (m : M A) (k : A -> M B) : M B :=
  fun s => match m s with
           | inl e => inl e
           | inr (a, s') => k a s'
           end.

Notation "'let!' x ':=' m 'in' k" := (bind m (fun x => k))
  (at level 10, x pattern, m at level 100, k at level 200).
Notation "m ';;;' k" := (bind m (fun _ => k))
  (at level 100, k at level 200, right associativity).

Definition lift_option {A} (e : exn) (o : option A) : M A :=
  match o with Some a => ret a | None => raise e end.

(** A new array object; its location is the next free one. *)
Definition alloc (o : object) : M loc := fun s => inr (length s, s ++ [o]).

Definition load_c (l : loc) : M (ndarray complex128) :=
  fun s => match s !! l with
           | Some (CArray a) => inr (a, s)
           | _ => inl TypeError
           end.

Definition load_i (l : loc) : M (ndarray Z) :=
  fun s => match s !! l with
           | Some (IArray a) => inr (a, s)
           | _ => inl TypeError
           end.

Definition write (l : loc) (o : object) : M unit :=
  fun s => inr (tt, <[l := o]> s).

(** [a[h, w]] on a complex array, [a[h, w] = v] on an integer array. *)
Definition getitem_c (l : loc) (h w : Z) : M complex128 :=
  let! a := load_c l in lift_option IndexError (Nd.get a h w).

Definition setitem_i (l : loc) (h w : Z) (v : Z) : M unit :=
  let! a := load_i l in
  let! a' := lift_option IndexError (Nd.set a h w v) in
  write l (IArray a').

(** A unary ufunc applied to a stored complex array; the result is a new
    array. *)
Definition ufunc1_c (f : complex128 -> complex128) (l : loc) : M loc :=
  let! a := load_c l in alloc (CArray (Nd.map f a)).

(** A binary ufunc applied to two stored complex arrays; the result is a
    new array.  Operands of different shapes are refused. *)
Definition ufunc2_c (f : complex128 -> complex128 -> complex128) (l1 l2 : loc) : M loc :=
  let! a := load_c l1 in
  let! b := load_c l2 in
  if decide (shape a = shape b) then alloc (CArray (Nd.zip_with f a b))
  else raise ValueError.

(** [a[mask] = v] in place; the mask must have the shape of the array. *)
Definition setmask_c (l : loc) (mask : ndarray bool) (v : complex128) : M unit :=
  let! a := load_c l in
  if decide (shape mask = shape a) then write l (CArray (Nd.assign_where mask v a))
  else raise IndexError.

Definition setmask_i (l : loc) (mask : ndarray bool) (v : Z) : M unit :=
  let! a := load_i l in
  if decide (shape mask = shape a) then write l (IArray (Nd.assign_where mask v a))
  else raise IndexError.

(** [for k in ks: body(k)] *)
Fixpoint for_each (ks : list Z) (body : Z -> M unit) : M unit :=
  match ks with
  | [] => ret tt
  | k :: ks' => body k ;;; for_each ks' body
  end.

(** [range(n)] *)
Definition range (n : Z) : list Z := seqZ 0 n.
Arguments range : simpl never.

(* ===================================================================== *)
(** * [np.ogrid] with a complex step *)
(* ===================================================================== *)

(** One axis of [np.ogrid[start:stop:n*1j]], after NumPy's
    [nd_grid.__getitem__]: the size is [int(abs(n*1j))], the step is
    [(stop - start) / float(size - 1)] unless the size is 1, and the axis
    is [arange(size) * step + start].  [span] is the difference
    [stop - start] as Python computes it.  The last sample is not set to
    [stop]; it is whatever [(size-1)*step + start] rounds to.  (The size is
    [|n|] for every [n] below [2^53], which an array in memory is.) *)
Definition ogrid_step (span : F64.t) (n : Z) : F64.t :=
  let size := Z.abs n in
  if size =? 1 then F64.of_int 1 else F64.div span (F64.of_int (size - 1)).

Definition ogrid_sample (start span : F64.t) (n k : Z) : F64.t :=
  F64.add (F64.mul (F64.of_int k) (ogrid_step span n)) start.

Definition ogrid_axis (start span : F64.t) (n : Z) : list F64.t :=
  fmap (M:=list) (ogrid_sample start span n) (seqZ 0 (Z.abs n)).

(** [y] of [np.ogrid[-1:0:height*1j, ...]] *)
Definition ogrid_y (height : Z) : list F64.t :=
  ogrid_axis (F64.of_int (-1)) (F64.of_int (0 - (-1))) height.

(** [x] of [np.ogrid[..., -1.5:0:width*1j]] *)
Definition ogrid_x (width : Z) : list F64.t :=
  ogrid_axis (F64.opp F64.lit_1_5)
             (F64.sub (F64.of_int 0) (F64.opp F64.lit_1_5)) width.

(** [x + y*1j] for one sample of each axis: both are promoted to complex. *)
Definition x_plus_yj (x y : F64.t) : complex128 :=
  C128.add (C128.of_float x) (C128.mul (C128.of_float y) C128.lit_1j).

(** [c = x + y*1j] *)
Definition coordinates (height width : Z) : ndarray complex128 :=
  Nd.outer x_plus_yj (ogrid_x width) (ogrid_y height).

(** The coordinate of cell [(row, col)], from the samples of the two axes. *)
Definition grid_point (height width row col : Z) : complex128 :=
  x_plus_yj
    (ogrid_sample (F64.opp F64.lit_1_5)
                  (F64.sub (F64.of_int 0) (F64.opp F64.lit_1_5)) width col)
    (ogrid_sample (F64.of_int (-1)) (F64.of_int (0 - (-1))) height row).

(** The literal [2] stored into a complex array. *)
Definition two_c : complex128 := Complex (F64.of_int 2) (F64.of_int 0).

(** [z.real**2 + z.imag**2 > 4] *)
Definition norm2_gt_4 (z : complex128) : bool :=
  F64.ltb (F64.of_int 4) (C128.norm2 z).

(* ===================================================================== *)
(** * The kernels *)
(* ===================================================================== *)

Section Kernels.

(** The platform's [hypot]. *)
Variable hypot : F64.t -> F64.t -> F64.t.

(** [abs(z) > 2] for a complex scalar. *)
Definition abs_gt_2 (z : complex128) : bool :=
  F64.ltb (F64.of_int 2) (hypot (real z) (imag z)).

(** The innermost loop of [mandelbrot_python] at pixel [(h, w)], from the
    current [z] over the remaining iteration indices:
<<
    for i in range(20):
      z = z**2 + c[h, w]
      if abs(z) > 2:
        fractal[h, w] = i
        break
>> *)
Fixpoint pixel_loop (c fractal : loc) (h w : Z) (z : complex128) (iters : list Z) : M unit :=
  match iters with
  | [] => ret tt
  | i :: iters' =>
      let! chw := getitem_c c h w in
      let z := C128.add (C128.square z) chw in
      if abs_gt_2 z then setitem_i fractal h w i
      else pixel_loop c fractal h w z iters'
  end.

(** The arrays the local names are bound to.  In [mandelbrot_python] the
    name [z] holds a scalar, not an array. *)
Record frame : Type := Frame { f_c : loc; f_z : option loc; f_fractal : loc }.

(** The body of [mandelbrot_python], returning the local bindings of the
    arrays when [return] is reached. *)
Definition mandelbrot_python_frame (height width : Z) : M frame :=
  let! c := alloc (CArray (coordinates height width)) in
  let! carr := load_c c in
  let! fractal := alloc (IArray (Nd.full (shape carr) 20)) in
  for_each (range height) (fun h =>
    for_each (range width) (fun w =>
      let! z := getitem_c c h w in
      pixel_loop c fractal h w z (range 20))) ;;;
  ret (Frame c None fractal).

Definition mandelbrot_python (height width : Z) : M loc :=
  let! fr := mandelbrot_python_frame height width in ret (f_fractal fr).

End Kernels.

(** [z = z**2 + c]: [z] is rebound to a new array. *)
Definition numpy_update (c z : loc) : M loc :=
  let! sq := ufunc1_c C128.square z in
  ufunc2_c C128.add sq c.

(** The rest of the loop body of [mandelbrot_numpy]:
<<
      diverged = z.real**2 + z.imag**2 > 4
      diverging_now = diverged & (fractal == 20)
      fractal[diverging_now] = i
      z[diverged] = 2
>> *)
Definition numpy_mark (fractal z : loc) (i : Z) : M unit :=
  let! zarr := load_c z in
  let diverged := Nd.map norm2_gt_4 zarr in
  let! farr := load_i fractal in
  if decide (shape diverged = shape farr) then
    let diverging_now :=
      Nd.zip_with andb diverged (Nd.map (fun v => v =? 20) farr) in
    setmask_i fractal diverging_now i ;;;
    setmask_c z diverged two_c
  else raise ValueError.

Definition numpy_step (c fractal z : loc) (i : Z) : M loc :=
  let! z' := numpy_update c z in
  numpy_mark fractal z' i ;;;
  ret z'.

(** [for i in iters: ...], threading the binding of [z]. *)
Fixpoint numpy_loop (c fractal z : loc) (iters : list Z) : M loc :=
  match iters with
  | [] => ret z
  | i :: iters' =>
      let! z' := numpy_step c fractal z i in
      numpy_loop c fractal z' iters'
  end.

(** The body of [mandelbrot_numpy] with the loop cut after [passes]
    passes, returning the local bindings of the arrays at that point.  The
    function itself makes 20 passes. *)
Definition numpy_frame_after (passes : Z) (height width : Z) : M frame :=
  let! c := alloc (CArray (coordinates height width)) in
  let! carr := load_c c in
  let! fractal := alloc (IArray (Nd.full (shape carr) 20)) in
  let z := c in
  let! z := numpy_loop c fractal z (range passes) in
  ret (Frame c (Some z) fractal).

Definition mandelbrot_numpy_frame (height width : Z) : M frame :=
  numpy_frame_after 20 height width.

Definition mandelbrot_numpy (height width : Z) : M loc :=
  let! fr := mandelbrot_numpy_frame height width in ret (f_fractal fr).

(** A cell of a stored array. *)
Definition cell_c (l : loc) (s : store) (row col : Z) : option complex128 :=
  match s !! l with
  | Some (CArray a) => Nd.get a row col
  | _ => None
  end.

Definition cell_i (l : loc) (s : store) (row col : Z) : option Z :=
  match s !! l with
  | Some (IArray a) => Nd.get a row col
  | _ => None
  end.

(** The escape field a caller receives: the array the returned name refers
    to, in the store the call leaves. *)
Definition returned_field (m : M loc) (s : store) : exn + ndarray Z :=
  match (let! l := m in load_i l) s with
  | inl e => inl e
  | inr (a, _) => inr a
  end.

(* ===================================================================== *)
(** * What the loops compute, cell by cell *)
(* ===================================================================== *)

(** The recurrence [z -> z**2 + c]. *)
Definition advance (cv z : complex128) : complex128 :=
  C128.add (C128.square z) cv.

(** The orbit of the text: [z_0 = c] and [z_(k+1) = z_k**2 + c]. *)
Definition orbit (cv : complex128) (k : nat) : complex128 :=
  Nat.iter k (advance cv) cv.

(** The index at which [pixel_loop] leaves through [break], if it does. *)
Fixpoint first_escape (test : complex128 -> bool) (cv z : complex128) (iters : list Z) : option Z :=
  match iters with
  | [] => None
  | i :: iters' =>
      let z' := advance cv z in
      if test z' then Some i else first_escape test cv z' iters'
  end.

Definition escape_time (test : complex128 -> bool) (cv : complex128) : Z :=
  default 20 (first_escape test cv cv (range 20)).

(** One pass of the body of [mandelbrot_numpy] seen from one cell: the pair
    of the cell of [z] and the cell of [fractal]. *)
Definition cell_step (cv : complex128) (st : complex128 * Z) (i : Z) : complex128 * Z :=
  let z' := advance cv st.1 in
  let diverged := norm2_gt_4 z' in
  (if diverged then two_c else z',
   if diverged && (st.2 =? 20) then i else st.2).

Definition cell_run (cv : complex128) (iters : list Z) : complex128 * Z :=
  fold_left (cell_step cv) iters (cv, 20).

(** The field while [mandelbrot_python] is at pixel [(hn, wn)]: the pixels
    before it in row-major order hold their escape time, the others 20. *)
Definition before (hn wn r k : nat) : bool :=
  (r <? hn)%nat || ((r =? hn)%nat && (k <? wn)%nat).

Definition partial_field (esc : complex128 -> Z) (c : ndarray complex128) (hn wn : nat) : ndarray Z :=
  NdArray (shape c)
    (imap (fun r row => imap (fun k cv => if before hn wn r k then esc cv else 20) row) (rows c)).

(** An array whose rows agree with its shape. *)
Definition well_shaped {T} (a : ndarray T) : Prop :=
  length (rows a) = fst (shape a) /\
  forall r row, rows a !! r = Some row -> length row = snd (shape a).

(** A correctly rounded [hypot] with the special cases of C99 (Annex F):
    an instance of the parameter on which the kernels can be run. *)
Definition hypot_c99 (x y : F64.t) : F64.t :=
  match x, y with
  | S754_infinity _, _ | _, S754_infinity _ => S754_infinity false
  | S754_nan, _ | _, S754_nan => S754_nan
  | S754_zero _, _ => SFabs y
  | _, S754_zero _ => SFabs x
  | S754_finite _ mx ex, S754_finite _ my ey =>
      let e := Z.min ex ey in
      let ax := Z.shiftl (Zpos mx) (ex - e) in
      let ay := Z.shiftl (Zpos my) (ey - e) in
      let '(mz, ez, lz) :=
        SFsqrt_core_binary F64.prec F64.emax (ax * ax + ay * ay) (2 * e) in
      binary_round_aux F64.prec F64.emax false mz ez lz
  end.

(** The field [mandelbrot_python] returns, as a function of the grid: with
    a dimension that is not positive one of the two pixel loops is empty
    and no cell is ever written. *)
Definition python_field (hypot : F64.t -> F64.t -> F64.t) (height width : Z) : ndarray Z :=
  if (0 <? height) && (0 <? width)
  then Nd.map (escape_time (abs_gt_2 hypot)) (coordinates height width)
  else Nd.full (shape (coordinates height width)) 20.

(** The field [mandelbrot_numpy] returns, as a function of the grid. *)
Definition numpy_field (height width : Z) : ndarray Z :=
  Nd.map (fun cv => (cell_run cv (range 20)).2) (coordinates height width).

(** The store of [mandelbrot_numpy] after the passes [done]: [c] is the
    grid, and every cell of [fractal] and of the array [z] is bound to is
    the state of that cell. *)
Definition batched_inv (c fractal : loc) (C : ndarray complex128)
    (done : list Z) (z : loc) (s : store) : Prop :=
  s !! c = Some (CArray C) /\
  s !! fractal = Some (IArray (Nd.map (fun cv => (cell_run cv done).2) C)) /\
  s !! z = Some (CArray (Nd.map (fun cv => (cell_run cv done).1) C)).

(** [v] is the least index [i] in [[0, 20)] with [|z_(i+1)| > 2] on the
    orbit of [cv], or 20 when there is none. *)
Definition least_escape (test : complex128 -> bool) (cv : complex128) (v : Z) : Prop :=
  (0 <= v < 20 /\
   test (orbit cv (S (Z.to_nat v))) = true /\
   forall j, 0 <= j < v -> test (orbit cv (S (Z.to_nat j))) = false)
  \/
  (v = 20 /\
   forall j, 0 <= j < 20 -> test (orbit cv (S (Z.to_nat j))) = false).

(** The exponent of the last place of a binary64 number of magnitude [e]:
    [fexp] of [SpecFloat] at precision 53 and [emax] 1024. *)
Definition fexp64 (e : Z) : Z := Z.max (e - 53) (-1074).

(** Every cell is an iteration index or the value 20. *)
Definition cells_in_range (F : ndarray Z) : Prop :=
  Forall (Forall (fun v => 0 <= v <= 20)) (rows F).



(* ===================================================================== *)
(** * The quadratic formula of the lecture *)
(* ===================================================================== *)

(** [np.sqrt] on a binary64 scalar; it is [nan] below zero. *)
Definition f64_sqrt : F64.t -> F64.t := SFsqrt F64.prec F64.emax.

Definition and_then {A B} (m : exn + A) (k : A -> exn + B) : exn + B :=
  match m with
  | inl e => inl e
  | inr a => k a
  end.

(** A binary ufunc on two one-dimensional arrays under NumPy's
    broadcasting: the lengths are equal, or one of them is 1; other
    operands "could not be broadcast together". *)
Definition broadcast1 (f : F64.t -> F64.t -> F64.t) (x y : list F64.t) : exn + list F64.t :=
  if decide (length x = length y) then inr (zip_with f x y)
  else match x, y with
       | [x0], _ => inr (fmap (M:=list) (f x0) y)
       | _, [y0] => inr (fmap (M:=list) (fun v => f v y0) x)
       | _, _ => inl ValueError
       end.

(** [(-b + np.sqrt(b**2 - 4*a*c)) / (2*a)] on arrays: nine elementwise
    operations, each over a whole array. *)
Definition quadratic_formula (a b c : list F64.t) : exn + list F64.t :=
  let neg_b := fmap (M:=list) F64.opp b in
  let b_sq := fmap (M:=list) (fun v => F64.mul v v) b in
  let a4 := fmap (M:=list) (F64.mul (F64.of_int 4)) a in
  and_then (broadcast1 F64.mul a4 c) (fun a4c =>
  and_then (broadcast1 F64.sub b_sq a4c) (fun disc =>
  let root := fmap (M:=list) f64_sqrt disc in
  and_then (broadcast1 F64.add neg_b root) (fun num =>
  let a2 := fmap (M:=list) (F64.mul (F64.of_int 2)) a in
  broadcast1 F64.div num a2))).

(** The same computation with its temporaries named, as the lecture
    writes it out. *)
Definition pedantic_quadratic_formula (a b c : list F64.t) : exn + list F64.t :=
  let tmp1 := fmap (M:=list) F64.opp b in
  let tmp2 := fmap (M:=list) (fun v => F64.mul v v) b in
  let tmp3 := fmap (M:=list) (F64.mul (F64.of_int 4)) a in
  and_then (broadcast1 F64.mul tmp3 c) (fun tmp4 =>
  and_then (broadcast1 F64.sub tmp2 tmp4) (fun tmp5 =>
  let tmp6 := fmap (M:=list) f64_sqrt tmp5 in
  and_then (broadcast1 F64.add tmp1 tmp6) (fun tmp7 =>
  let tmp8 := fmap (M:=list) (F64.mul (F64.of_int 2)) a in
  broadcast1 F64.div tmp7 tmp8))).

(** [(-b[i] + np.sqrt(b[i]**2 - 4*a[i]*c[i])) / (2*a[i])] as NumPy computes
    it in one cell: a zero divisor gives an infinity or [nan]. *)
Definition quadratic_element (a b c : F64.t) : F64.t :=
  F64.div
    (F64.add (F64.opp b)
             (f64_sqrt (F64.sub (F64.mul b b) (F64.mul (F64.mul (F64.of_int 4) a) c))))
    (F64.mul (F64.of_int 2) a).

(** A value below zero: a negative number or minus infinity. *)
Definition is_negative (x : F64.t) : bool :=
  match x with
  | S754_finite true _ _ | S754_infinity true => true
  | _ => false
  end.

(** [b**2 - 4*a*c] in one cell. *)
Definition discriminant (a b c : F64.t) : F64.t :=
  F64.sub (F64.mul b b) (F64.mul (F64.mul (F64.of_int 4) a) c).

(** What the compiled loops can raise.  [@nb.njit] compiles with Numba's
    default error model, Python's: a float division by a zero of either
    sign raises [ZeroDivisionError].  Compiled code does not check the
    bounds of an index; the model stops with [OutOfBounds] where the index
    is outside the array, and the properties below are about calls whose
    indices are in bounds. *)
Inductive jit_exn : Type :=
  | ZeroDivisionError
  | OutOfBounds.

(** The same expression on scalars in compiled code: every operation is
    the binary64 one ([b[i]**2] is a product, [np.sqrt] is [nan] below
    zero), and the division checks its divisor. *)
Definition quadratic_scalar (a b c : F64.t) : jit_exn + F64.t :=
  let num := F64.add (F64.opp b)
               (f64_sqrt (F64.sub (F64.mul b b) (F64.mul (F64.mul (F64.of_int 4) a) c))) in
  let den := F64.mul (F64.of_int 2) a in
  if F64.is_zero den then inl ZeroDivisionError else inr (F64.div num den).

(** [x[i]] on a one-dimensional array. *)
Definition getitem1 (x : list F64.t) (i : Z) : option F64.t :=
  j ← Nd.norm_index i (length x); x !! j.

(** The loop of [quadratic_formula_numba] over the indices [idx]:
<<
    for i in idx:
        out[i] = (-b[i] + np.sqrt(b[i]**2 - 4*a[i]*c[i])) / (2*a[i])
>> *)
Fixpoint quadratic_loop (a b c out : list F64.t) (idx : list Z) : jit_exn + list F64.t :=
  match idx with
  | [] => inr out
  | i :: idx' =>
      match getitem1 b i, getitem1 a i, getitem1 c i, Nd.norm_index i (length out) with
      | Some bi, Some ai, Some ci, Some j =>
          match quadratic_scalar ai bi ci with
          | inr v => quadratic_loop a b c (<[j := v]> out) idx'
          | inl e => inl e
          end
      | _, _, _, _ => inl OutOfBounds
      end
  end.

(** [np.empty(n)]: an array of [n] cells of whatever the memory holds,
    [uninit k] in cell [k]. *)
Definition np_empty (uninit : nat -> F64.t) (n : nat) : list F64.t :=
  fmap (M:=list) uninit (seq 0 n).

Definition quadratic_formula_numba (uninit : nat -> F64.t) (a b c : list F64.t) : jit_exn + list F64.t :=
  let n := length a in
  let out := np_empty uninit n in
  quadratic_loop a b c out (range (Z.of_nat n)).

(** [quadratic_formula_numba_parallel]: the iterations of
    [nb.prange(n)] run in an order the scheduler picks, [order]; no two
    of them touch the same cell of [out].  The properties below are about
    calls in which no iteration raises. *)
Definition quadratic_formula_numba_parallel (uninit : nat -> F64.t) (order : list Z)
    (a b c : list F64.t) : jit_exn + list F64.t :=
  let n := length a in
  let out := np_empty uninit n in
  quadratic_loop a b c out order.

(** What the three functions put in cell [j] when everything is in bounds. *)
Definition quadratic_cell (a b c : list F64.t) (j : nat) : option F64.t :=
  ai ← a !! j; bi ← b !! j; ci ← c !! j; Some (quadratic_element ai bi ci).

(** No divisor [2*a[i]] is zero. *)
Definition divisors_nonzero (a : list F64.t) : Prop :=
  Forall (fun ai => F64.is_zero (F64.mul (F64.of_int 2) ai) = false) a.

(* ===================================================================== *)
(** * A compiled function and a global it reads *)
(* ===================================================================== *)

Section Jit.

(** What a compiled function is cached on, the type of the argument for
    Numba and its shape and type for JAX; and the two reductions. *)
Context {K : Type} `{EqDecision K}.
Variable signature : list F64.t -> K.
Variables np_sum np_prod : list F64.t -> F64.t.

(** The body of [accumulate], with the global [do_sum] it reads:
<<
    if do_sum:
        return np.sum(arr)
    else:
        return np.prod(arr)
>> *)
Definition accumulate_body (do_sum : bool) (arr : list F64.t) : F64.t :=
  if do_sum then np_sum arr else np_prod arr.

(** The global [do_sum], and the programs compiled so far, one for each
    signature [accumulate] was called with. *)
Record jit_state : Type :=
  JitState { do_sum : bool; compiled : K -> option (list F64.t -> F64.t) }.

(** [do_sum = v] *)
Definition assign_do_sum (v : bool) (st : jit_state) : jit_state :=
  JitState v (compiled st).

(** [accumulate(arr)]: the first call with a signature compiles the body
    with the value the global has then, and keeps the program; every call
    runs the program kept for its signature. *)
Definition accumulate (arr : list F64.t) (st : jit_state) : F64.t * jit_state :=
  match compiled st (signature arr) with
  | Some program => (program arr, st)
  | None =>
      let program := accumulate_body (do_sum st) in
      (program arr,
       JitState (do_sum st)
                (fun k => if decide (k = signature arr) then Some program
                          else compiled st k))
  end.

(** A script of assignments to the global and calls. *)
Inductive statement : Type :=
  | Assign (v : bool)
  | Call (arr : list F64.t).

(** The results of the calls of a script, in order. *)
Fixpoint run_script (script : list statement) (st : jit_state) : list F64.t * jit_state :=
  match script with
  | [] => ([], st)
  | Assign v :: script' => run_script script' (assign_do_sum v st)
  | Call arr :: script' =>
      let '(r, st') := accumulate arr st in
      let '(rs, st'') := run_script script' st' in
      (r :: rs, st'')
  end.

(** The value the global has at the first call with signature [k] in a
    script that starts with the global at [current]. *)
Fixpoint first_value (script : list statement) (current : bool) (k : K) : bool :=
  match script with
  | [] => current
  | Assign v :: script' => first_value script' v k
  | Call arr :: script' =>
      if decide (signature arr = k) then current else first_value script' current k
  end.

(** What the calls of a script would return if every call with signature
    [k] ran the body with the value [frozen k]. *)
Fixpoint frozen_results (frozen : K -> bool) (script : list statement) : list F64.t :=
  match script with
  | [] => []
  | Assign _ :: script' => frozen_results frozen script'
  | Call arr :: script' =>
      accumulate_body (frozen (signature arr)) arr :: frozen_results frozen script'
  end.

End Jit.

(* ===================================================================== *)
(** * The monad *)
(* ===================================================================== *)

Lemma bind_ret_run {A B} (m : M A) (k : A -> M B) s a s' :
  m s = inr (a, s') -> bind m k s = k a s'.
Proof. intros H. unfold bind. by rewrite H. Qed.

Lemma load_c_run s l a :
  s !! l = Some (CArray a) -> load_c l s = inr (a, s).
Proof. intros H. unfold load_c. by rewrite H. Qed.

Lemma load_i_run s l a :
  s !! l = Some (IArray a) -> load_i l s = inr (a, s).
Proof. intros H. unfold load_i. by rewrite H. Qed.

Lemma getitem_c_run s l a h w v :
  s !! l = Some (CArray a) -> Nd.get a h w = Some v ->
  getitem_c l h w s = inr (v, s).
Proof.
  intros Hl Hg. unfold getitem_c.
  rewrite (bind_ret_run _ _ _ _ _ (load_c_run _ _ _ Hl)). by rewrite Hg.
Qed.

Lemma setitem_i_run s l a h w v a' :
  s !! l = Some (IArray a) -> Nd.set a h w v = Some a' ->
  setitem_i l h w v s = inr (tt, <[l := IArray a']> s).
Proof.
  intros Hl Hs. unfold setitem_i.
  rewrite (bind_ret_run _ _ _ _ _ (load_i_run _ _ _ Hl)). by rewrite Hs.
Qed.

Lemma for_each_app ks1 ks2 body s :
  for_each (ks1 ++ ks2) body s =
  (for_each ks1 body ;;; for_each ks2 body) s.
Proof.
  revert s. induction ks1 as [|k ks1 IH]; intros s; simpl.
  - reflexivity.
  - unfold bind. destruct (body k s) as [e|[[] s1]]; [reflexivity|].
    rewrite IH. reflexivity.
Qed.

(** Total correctness of a counted loop from an invariant indexed by the
    number of completed iterations. *)
Lemma for_each_range (I : nat -> store -> Prop) body (n : nat) s :
  I 0%nat s ->
  (forall (k : nat) s1, (k < n)%nat -> I k s1 ->
     exists s2, body (Z.of_nat k) s1 = inr (tt, s2) /\ I (S k) s2) ->
  exists s', for_each (range (Z.of_nat n)) body s = inr (tt, s') /\ I n s'.
Proof.
  intros H0 Hstep. unfold range.
  induction n as [|n IH].
  - exists s. split; [reflexivity | exact H0].
  - destruct IH as (s1 & Hrun & HI).
    { intros k s1 Hk. apply Hstep. lia. }
    destruct (Hstep n s1 ltac:(lia) HI) as (s2 & Hb & HI2).
    exists s2. split; [|exact HI2].
    replace (Z.of_nat (S n)) with (Z.of_nat n + 1) by lia.
    rewrite seqZ_app by lia.
    rewrite for_each_app. rewrite (bind_ret_run _ _ _ _ _ Hrun).
    simpl. rewrite Z.add_0_l. rewrite (bind_ret_run _ _ _ _ _ Hb). reflexivity.
Qed.

Lemma range_nonpos n : n <= 0 -> range n = [].
Proof. intros H. unfold range, seqZ. replace (Z.to_nat n) with 0%nat by lia. reflexivity. Qed.

(* ===================================================================== *)
(** * Arrays *)
(* ===================================================================== *)

Lemma norm_index_nat (r n : nat) :
  (r < n)%nat -> Nd.norm_index (Z.of_nat r) n = Some r.
Proof.
  intros H. unfold Nd.norm_index.
  destruct (Z.ltb_spec (Z.of_nat r) 0) as [?|_]; [lia|].
  destruct (Z.leb_spec 0 (Z.of_nat r)) as [_|?]; [|lia].
  destruct (Z.ltb_spec (Z.of_nat r) (Z.of_nat n)) as [_|?]; [|lia].
  simpl. by rewrite Nat2Z.id.
Qed.

Lemma norm_index_lt i n j : Nd.norm_index i n = Some j -> (j < n)%nat.
Proof.
  unfold Nd.norm_index. intros H.
  destruct (_ && _) eqn:E; [|done].
  apply andb_true_iff in E as [E1 E2].
  apply Z.leb_le in E1. apply Z.ltb_lt in E2.
  injection H as <-. lia.
Qed.

Lemma get_nat {T} (a : ndarray T) (r k : nat) row x :
  well_shaped a -> rows a !! r = Some row -> row !! k = Some x ->
  Nd.get a (Z.of_nat r) (Z.of_nat k) = Some x.
Proof.
  intros [Hlen Hrow] Hr Hk. unfold Nd.get.
  rewrite (norm_index_nat r) by (rewrite <- Hlen; by eapply lookup_lt_Some).
  simpl. rewrite (norm_index_nat k)
    by (rewrite <- (Hrow _ _ Hr); by eapply lookup_lt_Some).
  simpl. rewrite Hr. simpl. exact Hk.
Qed.

Lemma set_nat {T} (a : ndarray T) (r k : nat) v :
  (r < fst (shape a))%nat -> (k < snd (shape a))%nat ->
  Nd.set a (Z.of_nat r) (Z.of_nat k) v =
  Some (NdArray (shape a) (alter (fun row => <[k := v]> row) r (rows a))).
Proof.
  intros Hr Hk. unfold Nd.set.
  rewrite (norm_index_nat r) by done. simpl.
  rewrite (norm_index_nat k) by done. reflexivity.
Qed.

Lemma well_shaped_map {T U} (f : T -> U) (a : ndarray T) :
  well_shaped a -> well_shaped (Nd.map f a).
Proof.
  intros [Hlen Hrow]. split; simpl.
  - by rewrite length_fmap.
  - intros r row. rewrite list_lookup_fmap.
    destruct (rows a !! r) as [row'|] eqn:E; [|done].
    simpl. intros [= <-]. rewrite length_fmap. eauto.
Qed.

Lemma well_shaped_outer {T U V} (f : T -> U -> V) xs ys :
  well_shaped (Nd.outer f xs ys).
Proof.
  split; simpl.
  - by rewrite length_fmap.
  - intros r row. rewrite list_lookup_fmap.
    destruct (ys !! r); [|done]. simpl. intros [= <-]. by rewrite length_fmap.
Qed.

Lemma map_map {T U V} (g : U -> V) (f : T -> U) (a : ndarray T) :
  Nd.map g (Nd.map f a) = Nd.map (fun x => g (f x)) a.
Proof.
  unfold Nd.map. simpl. f_equal.
  rewrite <- list_fmap_compose. apply list_fmap_ext. intros _ row _.
  simpl. by rewrite <- list_fmap_compose.
Qed.

(** Arrays computed cell by cell from one array combine cell by cell. *)
Lemma zip_with_map_map {T U V W} (h : U -> V -> W) (f : T -> U) (g : T -> V) (a : ndarray T) :
  Nd.zip_with h (Nd.map f a) (Nd.map g a) = Nd.map (fun x => h (f x) (g x)) a.
Proof.
  unfold Nd.zip_with, Nd.map. simpl. f_equal.
  rewrite zip_with_fmap_l, zip_with_fmap_r, zip_with_diag.
  apply list_fmap_ext. intros _ row _.
  by rewrite zip_with_fmap_l, zip_with_fmap_r, zip_with_diag.
Qed.

Lemma map_id_ext {T} (f : T -> T) (a : ndarray T) :
  well_shaped a -> (forall x, f x = x) -> Nd.map f a = a.
Proof.
  intros _ Hf. destruct a as [sh rs]. unfold Nd.map. simpl. f_equal.
  rewrite <- (list_fmap_id rs) at 2. apply list_fmap_ext. intros _ row _.
  rewrite <- (list_fmap_id row) at 2. apply list_fmap_ext. intros _ x _. apply Hf.
Qed.

Lemma get_map {T U} (f : T -> U) (a : ndarray T) h w :
  Nd.get (Nd.map f a) h w = f <$> Nd.get a h w.
Proof.
  unfold Nd.get, Nd.map. simpl.
  destruct (Nd.norm_index h _) as [r|]; [|done]. simpl.
  destruct (Nd.norm_index w _) as [k|]; [|done]. simpl.
  rewrite list_lookup_fmap. destruct (rows a !! r) as [row|]; [|done]. simpl.
  by rewrite list_lookup_fmap.
Qed.

Lemma get_is_Some {T} (a : ndarray T) (r k : nat) :
  well_shaped a -> (r < fst (shape a))%nat -> (k < snd (shape a))%nat ->
  is_Some (Nd.get a (Z.of_nat r) (Z.of_nat k)).
Proof.
  intros [Hlen Hrow] Hr Hk.
  destruct (lookup_lt_is_Some_2 (rows a) r) as [row Hrw]; [lia|].
  destruct (lookup_lt_is_Some_2 row k) as [x Hx]; [rewrite (Hrow _ _ Hrw); lia|].
  exists x. eapply get_nat; eauto. by split.
Qed.

Lemma well_shaped_full {T} sh (v : T) : well_shaped (Nd.full sh v).
Proof.
  split; simpl.
  - by rewrite length_replicate.
  - intros r row E. apply lookup_replicate in E as [-> _]. by rewrite length_replicate.
Qed.

(* ===================================================================== *)
(** * The grid *)
(* ===================================================================== *)

Lemma length_ogrid_axis start span n :
  length (ogrid_axis start span n) = Z.to_nat (Z.abs n).
Proof. unfold ogrid_axis. by rewrite length_fmap, length_seqZ. Qed.

Lemma shape_coordinates h w :
  shape (coordinates h w) = (Z.to_nat (Z.abs h), Z.to_nat (Z.abs w)).
Proof.
  unfold coordinates, Nd.outer, ogrid_x, ogrid_y. simpl.
  by rewrite !length_ogrid_axis.
Qed.

Lemma well_shaped_coordinates h w : well_shaped (coordinates h w).
Proof. apply well_shaped_outer. Qed.

(* ===================================================================== *)
(** * The scalar kernel, pixel by pixel *)
(* ===================================================================== *)

Lemma before_start r k : before 0 0 r k = false.
Proof. unfold before. by destruct r. Qed.

Lemma before_next_row hn wn r k :
  (k < wn)%nat -> before hn wn r k = before (S hn) 0 r k.
Proof.
  intros Hk. unfold before.
  destruct (Nat.ltb_spec r hn), (Nat.ltb_spec r (S hn)), (Nat.eqb_spec r hn),
    (Nat.eqb_spec r (S hn)), (Nat.ltb_spec k wn), (Nat.ltb_spec k 0);
    simpl; try reflexivity; lia.
Qed.

Lemma before_all hn r k : (r < hn)%nat -> before hn 0 r k = true.
Proof. intros H. unfold before. by destruct (Nat.ltb_spec r hn); [|lia]. Qed.

Lemma before_step hn wn r k :
  before hn (S wn) r k =
  if decide (r = hn /\ k = wn) then true else before hn wn r k.
Proof.
  unfold before. case_decide as H.
  - destruct H as [-> ->]. rewrite Nat.eqb_refl.
    destruct (Nat.ltb_spec wn (S wn)); [|lia]. simpl. by rewrite orb_true_r.
  - destruct (Nat.ltb_spec r hn); [done|]. simpl.
    destruct (Nat.eqb_spec r hn); [|done]. simpl.
    destruct (Nat.ltb_spec k (S wn)), (Nat.ltb_spec k wn); try done; lia.
Qed.

Lemma partial_field_start esc c :
  well_shaped c -> partial_field esc c 0 0 = Nd.full (shape c) 20.
Proof.
  intros [Hlen Hrow]. unfold partial_field, Nd.full. f_equal.
  apply list_eq. intros r. rewrite list_lookup_imap.
  destruct (rows c !! r) as [row|] eqn:E; simpl.
  - rewrite lookup_replicate_2 by (rewrite <- Hlen; by eapply lookup_lt_Some).
    f_equal. apply list_eq. intros k. rewrite list_lookup_imap.
    destruct (row !! k) as [x|] eqn:E2; simpl.
    + rewrite before_start.
      rewrite lookup_replicate_2; [done|].
      rewrite <- (Hrow _ _ E). by eapply lookup_lt_Some.
    + symmetry. apply lookup_replicate_None.
      rewrite <- (Hrow _ _ E). by apply lookup_ge_None.
  - symmetry. apply lookup_replicate_None. rewrite <- Hlen. by apply lookup_ge_None.
Qed.

Lemma partial_field_next_row esc c hn :
  well_shaped c ->
  partial_field esc c hn (snd (shape c)) = partial_field esc c (S hn) 0.
Proof.
  intros [Hlen Hrow]. unfold partial_field. f_equal.
  apply imap_ext. intros r row Hr. apply imap_ext. intros k x Hk. simpl.
  rewrite (before_next_row hn (shape c).2 r k); [done|].
  rewrite <- (Hrow _ _ Hr). by eapply lookup_lt_Some.
Qed.

Lemma partial_field_end esc c :
  well_shaped c ->
  partial_field esc c (fst (shape c)) 0 = Nd.map esc c.
Proof.
  intros [Hlen Hrow]. unfold partial_field, Nd.map. f_equal.
  apply list_eq. intros r. rewrite list_lookup_imap, list_lookup_fmap.
  destruct (rows c !! r) as [row|] eqn:E; [|done]. simpl. f_equal.
  apply list_eq. intros k. rewrite list_lookup_imap, list_lookup_fmap.
  destruct (row !! k) as [x|] eqn:E2; [|done]. simpl.
  rewrite before_all; [done|]. rewrite <- Hlen. by eapply lookup_lt_Some.
Qed.

(** Writing the escape time of pixel [(hn, wn)] moves the field on by one
    pixel. *)
Lemma partial_field_write esc c hn wn row cv :
  rows c !! hn = Some row -> row !! wn = Some cv ->
  alter (fun fr => <[wn := esc cv]> fr) hn (rows (partial_field esc c hn wn)) =
  rows (partial_field esc c hn (S wn)).
Proof.
  intros Hr Hk. unfold partial_field. simpl.
  apply list_eq. intros r. rewrite list_lookup_alter, !list_lookup_imap.
  case_decide as Hd.
  - subst r. rewrite Hr. simpl. f_equal.
    apply list_eq. intros k. rewrite list_lookup_insert, !list_lookup_imap.
    rewrite length_imap. rewrite before_step.
    case_decide as Hd2.
    + destruct Hd2 as [-> Hlt]. rewrite Hk. simpl.
      rewrite decide_True by done. done.
    + destruct (row !! k) as [x|] eqn:E; [|done]. simpl.
      case_decide as Hd3; [|done].
      destruct Hd3 as [_ ->]. exfalso. apply Hd2. split; [done|].
      by eapply lookup_lt_Some.
  - destruct (rows c !! r) as [row'|] eqn:E; [|done]. simpl. f_equal.
    apply imap_ext. intros k x _. simpl. rewrite before_step.
    rewrite decide_False; [done|]. intros [? _]. congruence.
Qed.

(** A pixel that never escapes leaves the field as it is. *)
Lemma partial_field_skip esc c hn wn row cv :
  rows c !! hn = Some row -> row !! wn = Some cv -> esc cv = 20 ->
  partial_field esc c hn wn = partial_field esc c hn (S wn).
Proof.
  intros Hr Hk H20. unfold partial_field. f_equal.
  apply imap_ext. intros r row' Hr'. apply imap_ext. intros k x Hk'. simpl.
  rewrite before_step. case_decide as Hd; [|done].
  destruct Hd as [-> ->].
  assert (row' = row) as -> by congruence.
  assert (x = cv) as -> by congruence.
  rewrite H20. by destruct (before hn wn hn wn).
Qed.

(** The store during a call: the caller's objects, then [c], then
    [fractal]. *)
Lemma lookup_frame_c (s : store) (a b : object) :
  (s ++ [a; b]) !! length s = Some a.
Proof. rewrite lookup_app_r by lia. by rewrite Nat.sub_diag. Qed.

Lemma lookup_frame_fractal (s : store) (a b : object) :
  (s ++ [a; b]) !! S (length s) = Some b.
Proof.
  rewrite lookup_app_r by lia.
  by replace (S (length s) - length s)%nat with 1%nat by lia.
Qed.

Lemma insert_frame_fractal (s : store) (a b b' : object) :
  <[S (length s) := b']> (s ++ [a; b]) = s ++ [a; b'].
Proof.
  rewrite insert_app_r_alt by lia.
  by replace (S (length s) - length s)%nat with 1%nat by lia.
Qed.

Section ScalarKernel.
Variable hypot : F64.t -> F64.t -> F64.t.

Let test := abs_gt_2 hypot.
Let esc := escape_time test.

Lemma pixel_loop_run s0 (C : ndarray complex128) (F : ndarray Z)
      (r k : nat) cv z iters :
  Nd.get C (Z.of_nat r) (Z.of_nat k) = Some cv ->
  shape F = shape C ->
  pixel_loop hypot (length s0) (S (length s0)) (Z.of_nat r) (Z.of_nat k) z iters
             (s0 ++ [CArray C; IArray F]) =
  inr (tt,
       s0 ++ [CArray C;
              IArray (match first_escape test cv z iters with
                      | Some i => NdArray (shape F)
                                    (alter (fun row => <[k := i]> row) r (rows F))
                      | None => F
                      end)]).
Proof.
  intros Hget Hsh. revert z.
  induction iters as [|i iters IH]; intros z; simpl.
  - reflexivity.
  - assert (Nd.norm_index (Z.of_nat r) (fst (shape C)) = Some r /\
            Nd.norm_index (Z.of_nat k) (snd (shape C)) = Some k) as [Hr Hk].
    { unfold Nd.get in Hget.
      destruct (Nd.norm_index (Z.of_nat r) _) as [r'|] eqn:E1; [|done].
      simpl in Hget.
      destruct (Nd.norm_index (Z.of_nat k) _) as [k'|] eqn:E2; [|done].
      apply norm_index_lt in E1 as H1. apply norm_index_lt in E2 as H2.
      unfold Nd.norm_index in E1, E2.
      destruct (Z.ltb_spec (Z.of_nat r) 0); [lia|].
      destruct (Z.ltb_spec (Z.of_nat k) 0); [lia|].
      destruct (_ && _) in E1; [|done]. destruct (_ && _) in E2; [|done].
      injection E1 as <-. injection E2 as <-. by rewrite !Nat2Z.id. }
    apply norm_index_lt in Hr, Hk.
    rewrite (bind_ret_run _ _ _ _ _
               (getitem_c_run _ _ _ _ _ _ (lookup_frame_c _ _ _) Hget)).
    fold (advance cv z). fold test.
    destruct (test (advance cv z)) eqn:Ht.
    + rewrite <- Hsh in Hr, Hk.
      rewrite (setitem_i_run _ _ _ _ _ _ _ (lookup_frame_fractal _ _ _)
                 (set_nat F r k i Hr Hk)).
      by rewrite insert_frame_fractal.
    + apply IH.
Qed.

(** One row of pixels. *)
Lemma row_loop_run s0 (C : ndarray complex128) (hn : nat) row :
  well_shaped C -> rows C !! hn = Some row ->
  for_each (range (Z.of_nat (snd (shape C))))
    (fun w => let! z := getitem_c (length s0) (Z.of_nat hn) w in
              pixel_loop hypot (length s0) (S (length s0)) (Z.of_nat hn) w z (range 20))
    (s0 ++ [CArray C; IArray (partial_field esc C hn 0)]) =
  inr (tt, s0 ++ [CArray C; IArray (partial_field esc C hn (snd (shape C)))]).
Proof.
  intros HC Hrow.
  destruct (for_each_range
    (fun wn s => s = s0 ++ [CArray C; IArray (partial_field esc C hn wn)])
    (fun w => let! z := getitem_c (length s0) (Z.of_nat hn) w in
              pixel_loop hypot (length s0) (S (length s0)) (Z.of_nat hn) w z (range 20))
    (snd (shape C)) (s0 ++ [CArray C; IArray (partial_field esc C hn 0)]))
    as (s' & Hrun & ->); [reflexivity| |exact Hrun].
  intros k s1 Hk ->.
  destruct (lookup_lt_is_Some_2 row k) as [cv Hcv].
  { destruct HC as [_ HC]. by rewrite (HC _ _ Hrow). }
  pose proof (get_nat C hn k row cv HC Hrow Hcv) as Hget.
  eexists. split; [|reflexivity].
  rewrite (bind_ret_run _ _ _ _ _
             (getitem_c_run _ _ _ _ _ _ (lookup_frame_c _ _ _) Hget)).
  rewrite (pixel_loop_run s0 C (partial_field esc C hn k) hn k cv cv
             (range 20) Hget eq_refl).
  assert (match first_escape test cv cv (range 20) with
          | Some i => NdArray (shape (partial_field esc C hn k))
                        (alter (fun fr => <[k := i]> fr) hn
                               (rows (partial_field esc C hn k)))
          | None => partial_field esc C hn k
          end = partial_field esc C hn (S k)) as ->; [|reflexivity].
  destruct (first_escape test cv cv (range 20)) as [i|] eqn:E.
  - assert (esc cv = i) as <- by (unfold esc, escape_time; by rewrite E).
    by rewrite (partial_field_write esc C hn k row cv Hrow Hcv).
  - apply (partial_field_skip esc C hn k row cv Hrow Hcv).
    unfold esc, escape_time. by rewrite E.
Qed.

(** All rows. *)
Lemma pixel_loops_run s0 (C : ndarray complex128) :
  well_shaped C ->
  for_each (range (Z.of_nat (fst (shape C))))
    (fun h => for_each (range (Z.of_nat (snd (shape C))))
       (fun w => let! z := getitem_c (length s0) h w in
                 pixel_loop hypot (length s0) (S (length s0)) h w z (range 20)))
    (s0 ++ [CArray C; IArray (Nd.full (shape C) 20)]) =
  inr (tt, s0 ++ [CArray C; IArray (Nd.map esc C)]).
Proof.
  intros HC.
  rewrite <- (partial_field_start esc C HC), <- (partial_field_end esc C HC).
  destruct (for_each_range
    (fun hn s => s = s0 ++ [CArray C; IArray (partial_field esc C hn 0)])
    (fun h => for_each (range (Z.of_nat (snd (shape C))))
       (fun w => let! z := getitem_c (length s0) h w in
                 pixel_loop hypot (length s0) (S (length s0)) h w z (range 20)))
    (fst (shape C)) (s0 ++ [CArray C; IArray (partial_field esc C 0 0)]))
    as (s' & Hrun & ->); [reflexivity| |exact Hrun].
  intros hn s1 Hh ->.
  destruct (lookup_lt_is_Some_2 (rows C) hn) as [row Hrow].
  { destruct HC as [HC _]. by rewrite HC. }
  eexists. split; [|reflexivity].
  rewrite (row_loop_run s0 C hn row HC Hrow).
  by rewrite partial_field_next_row.
Qed.

(** Rows of no pixels: a width that is not positive. *)
Lemma empty_rows_run (body : Z -> Z -> M unit) (n : nat) w s :
  w <= 0 ->
  for_each (range (Z.of_nat n)) (fun h => for_each (range w) (body h)) s = inr (tt, s).
Proof.
  intros Hw.
  destruct (for_each_range (fun _ s1 => s1 = s)
    (fun h => for_each (range w) (body h)) n s) as (s' & Hrun & ->);
    [reflexivity| |exact Hrun].
  intros k s1 _ ->. exists s. split; [|reflexivity].
  by rewrite (range_nonpos w Hw).
Qed.

(** The whole call: two objects are added to the store, the grid and the
    field. *)
Lemma mandelbrot_python_frame_run height width s :
  mandelbrot_python_frame hypot height width s =
  inr (Frame (length s) None (S (length s)),
       s ++ [CArray (coordinates height width);
             IArray (python_field hypot height width)]).
Proof.
  unfold mandelbrot_python_frame.
  set (C := coordinates height width).
  unfold bind at 1. unfold alloc at 1.
  rewrite (bind_ret_run _ _ _ C (s ++ [CArray C]))
    by (apply load_c_run; rewrite lookup_app_r by lia;
        by rewrite Nat.sub_diag).
  unfold bind at 1. unfold alloc at 1.
  rewrite length_app. cbn [length]. rewrite Nat.add_1_r.
  rewrite <- app_assoc. cbn [app].
  pose proof (well_shaped_coordinates height width) as HC. fold C in HC.
  pose proof (shape_coordinates height width) as Hsh. fold C in Hsh.
  unfold python_field. fold C.
  destruct (Z.ltb_spec 0 height) as [Hh|Hh]; cbn [andb].
  - destruct (Z.ltb_spec 0 width) as [Hw|Hw]; cbn [andb].
    + replace height with (Z.of_nat (fst (shape C)))
        by (rewrite Hsh; simpl; lia).
      replace width with (Z.of_nat (snd (shape C)))
        by (rewrite Hsh; simpl; lia).
      by rewrite (bind_ret_run _ _ _ _ _ (pixel_loops_run s C HC)).
    + replace height with (Z.of_nat (Z.to_nat height)) by lia.
      by rewrite (bind_ret_run _ _ _ _ _
                    (empty_rows_run _ (Z.to_nat height) width _ Hw)).
  - by rewrite (range_nonpos height Hh).
Qed.

End ScalarKernel.

(* ===================================================================== *)
(** * The batched kernel, pass by pass *)
(* ===================================================================== *)

Lemma zip_with_map_self {T U V} (h : U -> T -> V) (f : T -> U) (a : ndarray T) :
  Nd.zip_with h (Nd.map f a) a = Nd.map (fun x => h (f x) x) a.
Proof.
  unfold Nd.zip_with, Nd.map. simpl. f_equal.
  rewrite zip_with_fmap_l, zip_with_diag.
  apply list_fmap_ext. intros _ row _.
  by rewrite zip_with_fmap_l, zip_with_diag.
Qed.

Lemma ufunc2_c_run f s l1 l2 a b :
  s !! l1 = Some (CArray a) -> s !! l2 = Some (CArray b) -> shape a = shape b ->
  ufunc2_c f l1 l2 s = inr (length s, s ++ [CArray (Nd.zip_with f a b)]).
Proof.
  intros H1 H2 Hsh. unfold ufunc2_c.
  rewrite (bind_ret_run _ _ _ _ _ (load_c_run _ _ _ H1)).
  rewrite (bind_ret_run _ _ _ _ _ (load_c_run _ _ _ H2)).
  by rewrite decide_True.
Qed.

Lemma ufunc1_c_run f s l a :
  s !! l = Some (CArray a) ->
  ufunc1_c f l s = inr (length s, s ++ [CArray (Nd.map f a)]).
Proof.
  intros H1. unfold ufunc1_c.
  by rewrite (bind_ret_run _ _ _ _ _ (load_c_run _ _ _ H1)).
Qed.

Lemma setmask_i_run s l mask v a :
  s !! l = Some (IArray a) -> shape mask = shape a ->
  setmask_i l mask v s = inr (tt, <[l := IArray (Nd.assign_where mask v a)]> s).
Proof.
  intros H1 Hsh. unfold setmask_i.
  rewrite (bind_ret_run _ _ _ _ _ (load_i_run _ _ _ H1)).
  by rewrite decide_True.
Qed.

Lemma setmask_c_run s l mask v a :
  s !! l = Some (CArray a) -> shape mask = shape a ->
  setmask_c l mask v s = inr (tt, <[l := CArray (Nd.assign_where mask v a)]> s).
Proof.
  intros H1 Hsh. unfold setmask_c.
  rewrite (bind_ret_run _ _ _ _ _ (load_c_run _ _ _ H1)).
  by rewrite decide_True.
Qed.

Section BatchedKernel.
Variables (c fractal : loc) (C : ndarray complex128).

(** [z = z**2 + c] adds two arrays to the store, the square and the sum,
    and binds [z] to the sum; no existing array is written. *)
Lemma numpy_update_run (s : store) z (f : complex128 -> complex128) :
  s !! c = Some (CArray C) ->
  s !! z = Some (CArray (Nd.map f C)) ->
  numpy_update c z s =
  inr (S (length s),
       s ++ [CArray (Nd.map (fun cv => C128.square (f cv)) C);
             CArray (Nd.map (fun cv => advance cv (f cv)) C)]).
Proof.
  intros Hc Hz. unfold numpy_update.
  rewrite (bind_ret_run _ _ _ _ _ (ufunc1_c_run _ _ _ _ Hz)).
  rewrite map_map.
  erewrite ufunc2_c_run; cycle 1.
  - rewrite lookup_app_r by lia. by rewrite Nat.sub_diag.
  - apply lookup_app_l_Some, Hc.
  - reflexivity.
  - rewrite zip_with_map_self, length_app, <- app_assoc. cbn [length app].
    by rewrite Nat.add_1_r.
Qed.

(** The masked writes: [fractal] and the array [z] is bound to are
    updated in place, cell by cell. *)
Lemma numpy_mark_run (s : store) z i (f : complex128 -> complex128) (g : complex128 -> Z) :
  z <> fractal ->
  s !! fractal = Some (IArray (Nd.map g C)) ->
  s !! z = Some (CArray (Nd.map f C)) ->
  numpy_mark fractal z i s =
  inr (tt,
       <[z := CArray (Nd.map (fun cv => if norm2_gt_4 (f cv) then two_c else f cv) C)]>
         (<[fractal := IArray (Nd.map (fun cv =>
              if norm2_gt_4 (f cv) && (g cv =? 20) then i else g cv) C)]> s)).
Proof.
  intros Hne Hf Hz. unfold numpy_mark.
  rewrite (bind_ret_run _ _ _ _ _ (load_c_run _ _ _ Hz)).
  rewrite (bind_ret_run _ _ _ _ _ (load_i_run _ _ _ Hf)).
  rewrite decide_True by reflexivity.
  rewrite !map_map, zip_with_map_map.
  erewrite bind_ret_run;
    [|by apply (setmask_i_run s fractal _ i (Nd.map g C) Hf)].
  unfold Nd.assign_where. rewrite zip_with_map_map.
  erewrite setmask_c_run; cycle 1.
  - rewrite list_lookup_insert_ne by done. exact Hz.
  - reflexivity.
  - unfold Nd.assign_where. by rewrite zip_with_map_map.
Qed.

(** One pass of the loop body. *)
Lemma numpy_step_run (s : store) z i (f : complex128 -> complex128) (g : complex128 -> Z) :
  s !! c = Some (CArray C) ->
  s !! fractal = Some (IArray (Nd.map g C)) ->
  s !! z = Some (CArray (Nd.map f C)) ->
  numpy_step c fractal z i s =
  inr (S (length s),
       <[S (length s) := CArray (Nd.map (fun cv => (cell_step cv (f cv, g cv) i).1) C)]>
         (<[fractal := IArray (Nd.map (fun cv => (cell_step cv (f cv, g cv) i).2) C)]>
            (s ++ [CArray (Nd.map (fun cv => C128.square (f cv)) C);
                   CArray (Nd.map (fun cv => advance cv (f cv)) C)]))).
Proof.
  intros Hc Hf Hz. unfold numpy_step.
  rewrite (bind_ret_run _ _ _ _ _ (numpy_update_run s z f Hc Hz)).
  apply lookup_lt_Some in Hf as Hflt.
  erewrite bind_ret_run; cycle 1.
  - apply (numpy_mark_run _ (S (length s)) i (fun cv => advance cv (f cv)) g).
    + lia.
    + apply lookup_app_l_Some, Hf.
    + rewrite lookup_app_r by lia.
      by replace (S (length s) - length s)%nat with 1%nat by lia.
  - reflexivity.
Qed.

End BatchedKernel.

Lemma full_as_map {T U} (a : ndarray T) (v : U) :
  well_shaped a -> Nd.full (shape a) v = Nd.map (fun _ => v) a.
Proof.
  intros [Hlen Hrow]. unfold Nd.full, Nd.map. f_equal.
  apply list_eq. intros r. rewrite list_lookup_fmap.
  destruct (rows a !! r) as [row|] eqn:E; simpl.
  - rewrite lookup_replicate_2 by (rewrite <- Hlen; by eapply lookup_lt_Some).
    f_equal. apply list_eq. intros k. rewrite list_lookup_fmap.
    destruct (row !! k) as [x|] eqn:E2; simpl.
    + rewrite lookup_replicate_2; [done|].
      rewrite <- (Hrow _ _ E). by eapply lookup_lt_Some.
    + apply lookup_replicate_None. rewrite <- (Hrow _ _ E). by apply lookup_ge_None.
  - apply lookup_replicate_None. rewrite <- Hlen. by apply lookup_ge_None.
Qed.

Lemma cell_run_snoc cv done i :
  cell_run cv (done ++ [i]) = cell_step cv (cell_run cv done) i.
Proof. unfold cell_run. by rewrite fold_left_app. Qed.

Section BatchedLoop.
Variables (c fractal : loc) (C : ndarray complex128).
Hypothesis c_fractal : c <> fractal.

Local Abbreviation batched_inv := (batched_inv c fractal C).

Lemma numpy_loop_run iters : forall done z (s : store),
  batched_inv done z s ->
  exists z' (s' : store),
    numpy_loop c fractal z iters s = inr (z', s') /\
    batched_inv (done ++ iters) z' s' /\
    (length s <= length s')%nat /\
    (forall l, (l < length s)%nat -> l <> fractal -> s' !! l = s !! l) /\
    (iters <> [] -> (length s <= z')%nat).
Proof.
  induction iters as [|i iters IH]; intros done z s (Hc & Hf & Hz).
  - exists z, s. rewrite app_nil_r. simpl. repeat split; try done.
  - simpl.
    rewrite (bind_ret_run _ _ _ _ _
               (numpy_step_run c fractal C s z i _ _ Hc Hf Hz)).
    apply lookup_lt_Some in Hc as Hclt. apply lookup_lt_Some in Hf as Hflt.
    match goal with |- context [numpy_loop _ _ _ _ ?s1] => set (s1' := s1) end.
    assert (length s1' = S (S (length s))) as Hlen.
    { unfold s1'. rewrite !length_insert, length_app. simpl. lia. }
    destruct (IH (done ++ [i]) (S (length s)) s1') as (z' & s' & Hrun & Hinv & Hle & Hfr & Hz').
    { unfold s1'. repeat split.
      - rewrite list_lookup_insert_ne by lia.
        rewrite list_lookup_insert_ne by done.
        by apply lookup_app_l_Some.
      - rewrite list_lookup_insert_ne by lia.
        rewrite list_lookup_insert_eq by (rewrite length_app; simpl; lia).
        do 2 f_equal. unfold Nd.map. f_equal.
        apply list_fmap_ext. intros _ row _. apply list_fmap_ext. intros _ cv _.
        rewrite cell_run_snoc. by destruct (cell_run cv done).
      - rewrite list_lookup_insert_eq
          by (rewrite length_insert, length_app; simpl; lia).
        do 2 f_equal. unfold Nd.map. f_equal.
        apply list_fmap_ext. intros _ row _. apply list_fmap_ext. intros _ cv _.
        rewrite cell_run_snoc. by destruct (cell_run cv done). }
    exists z', s'. rewrite <- app_assoc in Hinv. simpl in Hinv.
    split; [exact Hrun|]. split; [exact Hinv|].
    split; [lia|]. split.
    + intros l Hl Hne. rewrite Hfr by (done || lia).
      unfold s1'. rewrite list_lookup_insert_ne by lia.
      rewrite list_lookup_insert_ne by done.
      by rewrite lookup_app_l.
    + intros _. destruct iters as [|i' iters'].
      * simpl in Hrun. injection Hrun as <- <-. lia.
      * specialize (Hz' ltac:(done)). lia.
Qed.

End BatchedLoop.

(** The batched kernel after [passes] passes: the store has grown, [c] is
    the grid, and [fractal] and [z] hold the state of every cell. *)
Lemma numpy_frame_after_run passes height width (s : store) :
  exists z (s' : store),
    numpy_frame_after passes height width s =
      inr (Frame (length s) (Some z) (S (length s)), s') /\
    batched_inv (length s) (S (length s)) (coordinates height width)
                (range passes) z s' /\
    (0 < passes -> (S (length s) < z)%nat) /\
    (forall l, (l < length s)%nat -> s' !! l = s !! l).
Proof.
  unfold numpy_frame_after.
  set (C := coordinates height width).
  pose proof (well_shaped_coordinates height width) as HC. fold C in HC.
  unfold bind at 1. unfold alloc at 1.
  rewrite (bind_ret_run _ _ _ C (s ++ [CArray C]))
    by (apply load_c_run; rewrite lookup_app_r by lia;
        by rewrite Nat.sub_diag).
  unfold bind at 1. unfold alloc at 1.
  rewrite length_app. cbn [length]. rewrite Nat.add_1_r.
  rewrite <- app_assoc. cbn [app].
  destruct (numpy_loop_run (length s) (S (length s)) C ltac:(lia) (range passes) []
              (length s) (s ++ [CArray C; IArray (Nd.full (shape C) 20)]))
    as (z & s' & Hrun & Hinv & Hle & Hfr & Hz').
  { repeat split.
    - apply lookup_frame_c.
    - rewrite lookup_frame_fractal. by rewrite (full_as_map C 20 HC).
    - rewrite lookup_frame_c. do 2 f_equal. symmetry. by apply map_id_ext. }
  exists z, s'. rewrite (bind_ret_run _ _ _ _ _ Hrun).
  split; [reflexivity|]. split; [exact Hinv|].
  rewrite length_app in Hz', Hfr. simpl in Hz', Hfr. split.
  - intros Hp. assert (range passes <> []) as Hne.
    { unfold range. rewrite seqZ_cons by done. done. }
    specialize (Hz' Hne). lia.
  - intros l Hl. rewrite Hfr by lia. by rewrite lookup_app_l.
Qed.

(** The whole call of the batched kernel. *)
Lemma mandelbrot_numpy_frame_run height width (s : store) :
  exists z (s' : store),
    mandelbrot_numpy_frame height width s =
      inr (Frame (length s) (Some z) (S (length s)), s') /\
    s' !! length s = Some (CArray (coordinates height width)) /\
    s' !! S (length s) = Some (IArray (numpy_field height width)) /\
    (S (length s) < z)%nat /\
    (forall l, (l < length s)%nat -> s' !! l = s !! l).
Proof.
  destruct (numpy_frame_after_run 20 height width s)
    as (z & s' & Hrun & (Hc & Hf & _) & Hz & Hfr).
  exists z, s'. repeat split; try done. apply Hz. lia.
Qed.

(** ** The escape fields the callers receive *)

Lemma returned_field_python hypot height width (s : store) :
  returned_field (mandelbrot_python hypot height width) s =
  inr (python_field hypot height width).
Proof.
  unfold returned_field, mandelbrot_python.
  unfold bind at 1. unfold bind at 1.
  rewrite mandelbrot_python_frame_run. simpl.
  by rewrite (load_i_run _ _ _ (lookup_frame_fractal _ _ _)).
Qed.

Lemma returned_field_numpy height width (s : store) :
  returned_field (mandelbrot_numpy height width) s =
  inr (numpy_field height width).
Proof.
  unfold returned_field, mandelbrot_numpy.
  destruct (mandelbrot_numpy_frame_run height width s)
    as (z & s' & Hrun & _ & Hf & _).
  unfold bind at 1. unfold bind at 1. rewrite Hrun. simpl.
  by rewrite (load_i_run _ _ _ Hf).
Qed.

(* ===================================================================== *)
(** * Escape times and orbits *)
(* ===================================================================== *)

Lemma iter_advance cv z (j : nat) :
  Nat.iter j (advance cv) (advance cv z) = Nat.iter (S j) (advance cv) z.
Proof. induction j as [|j IH]; [done|]. simpl in *. by rewrite IH. Qed.

(** The loop over [m, m+1, ..., m+n-1] from [z] leaves at the first index
    whose updated value passes the test. *)
Lemma first_escape_seqZ test cv (n : nat) : forall m z,
  match first_escape test cv z (seqZ m (Z.of_nat n)) with
  | Some i =>
      exists j : nat, (j < n)%nat /\ i = m + Z.of_nat j /\
        test (Nat.iter (S j) (advance cv) z) = true /\
        forall j' : nat, (j' < j)%nat ->
          test (Nat.iter (S j') (advance cv) z) = false
  | None =>
      forall j : nat, (j < n)%nat -> test (Nat.iter (S j) (advance cv) z) = false
  end.
Proof.
  induction n as [|n IH]; intros m z.
  - simpl. intros j Hj. lia.
  - rewrite seqZ_cons by lia.
    replace (Z.pred (Z.of_nat (S n))) with (Z.of_nat n) by lia.
    simpl. destruct (test (advance cv z)) eqn:Ht.
    + exists 0%nat. repeat split; [lia|lia|exact Ht|]. intros j' Hj'. lia.
    + specialize (IH (Z.succ m) (advance cv z)).
      destruct (first_escape test cv (advance cv z) (seqZ (Z.succ m) (Z.of_nat n)))
        as [i|].
      * destruct IH as (j & Hj & -> & Hj1 & Hj2).
        exists (S j). repeat split; [lia|lia| |].
        -- by rewrite <- iter_advance.
        -- intros [|j'] Hj'; [exact Ht|]. rewrite <- iter_advance. apply Hj2. lia.
      * intros [|j] Hj; [exact Ht|]. rewrite <- iter_advance. apply IH. lia.
Qed.

Lemma escape_time_least test cv : least_escape test cv (escape_time test cv).
Proof.
  unfold escape_time, least_escape, range.
  pose proof (first_escape_seqZ test cv 20 0 cv) as H.
  change (Z.of_nat 20) with 20 in H.
  destruct (first_escape test cv cv (seqZ 0 20)) as [i|]; simpl.
  - destruct H as (j & Hj & -> & H1 & H2). left.
    rewrite Z.add_0_l, Nat2Z.id. repeat split; [lia|lia|exact H1|].
    intros j' Hj'. unfold orbit. apply H2. lia.
  - right. split; [done|]. intros j Hj. unfold orbit. apply H. lia.
Qed.

Lemma escape_time_range test cv : 0 <= escape_time test cv <= 20.
Proof.
  destruct (escape_time_least test cv) as [[H _]|[H _]]; lia.
Qed.

(** The cell of [fractal] after some passes is 20 or the index of one of
    them. *)
Lemma cell_run_range cv (iters : list Z) :
  (forall i, i ∈ iters -> 0 <= i < 20) ->
  0 <= (cell_run cv iters).2 <= 20.
Proof.
  intros Hin. unfold cell_run.
  assert (0 <= (cv, 20).2 <= 20) as H0 by (simpl; lia).
  revert H0. generalize (cv, 20). 
  induction iters as [|i iters IH]; intros st Hst; [done|].
  simpl. apply IH.
  - intros i' Hi'. apply Hin. by right.
  - unfold cell_step. simpl.
    destruct (_ && _); [|done].
    specialize (Hin i ltac:(left)). lia.
Qed.

Lemma range_20_elem i : i ∈ range 20 -> 0 <= i < 20.
Proof. unfold range. intros H%elem_of_seqZ. lia. Qed.

(** ** Shapes and cells of the two fields *)

Lemma shape_python_field hypot height width :
  shape (python_field hypot height width) =
  (Z.to_nat (Z.abs height), Z.to_nat (Z.abs width)).
Proof.
  unfold python_field. destruct (_ && _); simpl; apply shape_coordinates.
Qed.

Lemma shape_numpy_field height width :
  shape (numpy_field height width) =
  (Z.to_nat (Z.abs height), Z.to_nat (Z.abs width)).
Proof. unfold numpy_field. simpl. apply shape_coordinates. Qed.

Lemma well_shaped_python_field hypot height width :
  well_shaped (python_field hypot height width).
Proof.
  unfold python_field. destruct (_ && _).
  - apply well_shaped_map, well_shaped_coordinates.
  - apply well_shaped_full.
Qed.

Lemma well_shaped_numpy_field height width :
  well_shaped (numpy_field height width).
Proof. apply well_shaped_map, well_shaped_coordinates. Qed.

Lemma Forall_cells_map {T U} (P : U -> Prop) (f : T -> U) (a : ndarray T) :
  (forall x, P (f x)) -> Forall (Forall P) (rows (Nd.map f a)).
Proof.
  intros HP. simpl. apply Forall_fmap, Forall_forall. intros row _.
  apply Forall_fmap, Forall_forall. intros x _. apply HP.
Qed.

Lemma Forall_cells_full {T} (P : T -> Prop) sh (v : T) :
  P v -> Forall (Forall P) (rows (Nd.full sh v)).
Proof.
  intros HP. simpl. apply Forall_replicate, Forall_replicate, HP.
Qed.

(* ===================================================================== *)
(** * Binary64 facts the grid needs *)
(* ===================================================================== *)

Lemma Zdigits2_log2 m : 0 < m -> Zdigits2 m = Z.log2 m + 1.
Proof.
  destruct m as [|p|p]; try lia. intros _. simpl.
  assert (forall q, digits2_pos q = Pos.size q) as Hsz.
  { induction q as [q IH|q IH|]; simpl; by rewrite ?IH. }
  destruct p as [p|p|]; simpl; rewrite ?Hsz; lia.
Qed.

Lemma Zdigits2_nonneg m : 0 <= Zdigits2 m.
Proof. destruct m; simpl; lia. Qed.

Lemma Zdigits2_pos m : 0 < m -> 1 <= Zdigits2 m.
Proof. intros H. rewrite Zdigits2_log2 by done. pose proof (Z.log2_nonneg m). lia. Qed.

Lemma Zdigits2_mono a b : 0 <= a <= b -> Zdigits2 a <= Zdigits2 b.
Proof.
  intros [Ha Hab]. destruct (Z.eq_dec a 0) as [->|Hne].
  - simpl. apply Zdigits2_nonneg.
  - rewrite !Zdigits2_log2 by lia. pose proof (Z.log2_le_mono a b Hab). lia.
Qed.

Lemma Zdigits2_succ m : 0 <= m -> Zdigits2 (m + 1) <= Zdigits2 m + 1.
Proof.
  intros Hm. destruct (Z.eq_dec m 0) as [->|Hne]; [simpl; lia|].
  rewrite !Zdigits2_log2 by lia.
  pose proof (Z.log2_succ_le m). unfold Z.succ in *. lia.
Qed.

Lemma Zdigits2_shiftl m s : 0 < m -> 0 <= s -> Zdigits2 (Z.shiftl m s) = Zdigits2 m + s.
Proof.
  intros Hm Hs.
  assert (0 < Z.shiftl m s).
  { rewrite Z.shiftl_mul_pow2 by done. apply Z.mul_pos_pos; [done|]. by apply Z.pow_pos_nonneg. }
  rewrite !Zdigits2_log2 by done. rewrite Z.log2_shiftl by done. lia.
Qed.

Lemma shiftr_nonneg m n : 0 <= m -> 0 <= Z.shiftr m n.
Proof. intros. by apply Z.shiftr_nonneg. Qed.

Lemma Zdigits2_shiftr m n :
  0 <= m -> 0 <= n -> Zdigits2 (Z.shiftr m n) <= Z.max (Zdigits2 m - n) 0.
Proof.
  intros Hm Hn. destruct (Z.eq_dec m 0) as [->|Hne].
  - rewrite Z.shiftr_0_l. simpl. lia.
  - destruct (Z.eq_dec (Z.shiftr m n) 0) as [->|Hne2]; [simpl; lia|].
    pose proof (shiftr_nonneg m n Hm).
    destruct (Z.lt_ge_cases (Z.log2 m) n) as [Hlt|Hge].
    { exfalso. apply Hne2. apply Z.shiftr_eq_0; lia. }
    rewrite !Zdigits2_log2 by lia. rewrite Z.log2_shiftr by lia. lia.
Qed.

Lemma shiftr_pos m n : 1 <= m -> 0 <= n < Zdigits2 m -> 1 <= Z.shiftr m n.
Proof.
  intros Hm [Hn Hlt]. rewrite Zdigits2_log2 in Hlt by lia.
  rewrite Z.shiftr_div_pow2 by done.
  apply Z.div_le_lower_bound; [by apply Z.pow_pos_nonneg|].
  rewrite Z.mul_1_r.
  transitivity (2 ^ Z.log2 m).
  - apply Z.pow_le_mono_r; lia.
  - apply Z.log2_spec. lia.
Qed.

(** ** Shifting the mantissa right *)

(** [shr_1] halves a non-negative mantissa. *)
Lemma shr_1_m mrs : 0 <= shr_m mrs -> shr_m (shr_1 mrs) = Z.shiftr (shr_m mrs) 1.
Proof.
  destruct mrs as [m r s]. simpl. intros Hm.
  destruct m as [|p|p]; [done| |lia].
  destruct p; reflexivity.
Qed.

Lemma iter_shr_1_m (n : positive) : forall mrs,
  0 <= shr_m mrs ->
  shr_m (SpecFloat.iter_pos shr_1 n mrs) = Z.shiftr (shr_m mrs) (Zpos n).
Proof.
  induction n as [n IH|n IH|]; intros mrs Hm; simpl.
  - rewrite IH. 2:{ rewrite IH, shr_1_m by (rewrite ?shr_1_m; try apply shiftr_nonneg; done). by do 2 apply shiftr_nonneg. }
    rewrite IH by (rewrite shr_1_m by done; by apply shiftr_nonneg).
    rewrite shr_1_m by done.
    rewrite !Z.shiftr_shiftr by lia. f_equal. lia.
  - rewrite IH. 2:{ rewrite IH by done. by apply shiftr_nonneg. }
    rewrite IH by done.
    rewrite !Z.shiftr_shiftr by lia. f_equal. lia.
  - by apply shr_1_m.
Qed.

Lemma shr_record_of_loc_m m l : shr_m (shr_record_of_loc m l) = m.
Proof. by destruct l as [|[]]. Qed.

Lemma shr_fexp_spec m e l :
  0 <= m ->
  let n := Z.max (fexp64 (Zdigits2 m + e) - e) 0 in
  shr_m (shr_fexp 53 1024 m e l).1 = Z.shiftr m n /\
  (shr_fexp 53 1024 m e l).2 = e + n.
Proof.
  intros Hm n. unfold shr_fexp, shr.
  change (fexp 53 1024 (Zdigits2 m + e)) with (fexp64 (Zdigits2 m + e)).
  subst n. destruct (fexp64 (Zdigits2 m + e) - e) as [|p|p] eqn:E; simpl.
  - rewrite shr_record_of_loc_m. change (0 `max` 0) with 0.
    rewrite Z.shiftr_0_r. split; [done|lia].
  - rewrite iter_shr_1_m by (by rewrite shr_record_of_loc_m).
    rewrite shr_record_of_loc_m.
    replace (Z.pos p `max` 0) with (Z.pos p) by lia. done.
  - rewrite shr_record_of_loc_m.
    replace (Z.neg p `max` 0) with 0 by lia.
    rewrite Z.shiftr_0_r. split; [done|lia].
Qed.

Lemma round_nearest_even_bounds m l : m <= round_nearest_even m l <= m + 1.
Proof. destruct l as [|[]]; simpl; try lia. destruct (Z.even m); lia. Qed.

(** ** Rounding

    Rounding a non-negative mantissa of moderate magnitude neither
    overflows nor yields NaN. *)
Lemma binary_round_aux_finite s m e l E B :
  0 <= m -> e <= E -> Zdigits2 m + e <= B ->
  E <= 971 -> B <= 1023 ->
  F64.is_finite (binary_round_aux 53 1024 s m e l) = true.
Proof.
  intros Hm HE HB HE' HB'. unfold binary_round_aux.
  destruct (shr_fexp_spec m e l Hm) as [H1m H1e].
  destruct (shr_fexp 53 1024 m e l) as [mrs1 e1]. simpl in H1m, H1e.
  set (m2 := round_nearest_even (shr_m mrs1) (loc_of_shr_record mrs1)).
  pose proof (round_nearest_even_bounds (shr_m mrs1) (loc_of_shr_record mrs1)) as Hr.
  fold m2 in Hr.
  assert (0 <= shr_m mrs1) as Hm1 by (rewrite H1m; by apply shiftr_nonneg).
  assert (0 <= m2) as Hm2 by lia.
  destruct (shr_fexp_spec m2 e1 loc_Exact Hm2) as [H2m H2e].
  destruct (shr_fexp 53 1024 m2 e1 loc_Exact) as [mrs2 e2]. simpl in H2m, H2e.
  assert (0 <= shr_m mrs2) as Hm3 by (rewrite H2m; by apply shiftr_nonneg).
  destruct (shr_m mrs2) as [|p|p] eqn:Ep; [done| |lia].
  assert (e2 <= 971) as He2.
  { assert (0 <= Z.max (fexp64 (Zdigits2 m + e) - e) 0) as Hn0 by lia.
    pose proof (Zdigits2_shiftr m _ Hm Hn0) as Hd1.
    rewrite <- H1m in Hd1.
    pose proof (Zdigits2_mono m2 (shr_m mrs1 + 1) ltac:(lia)) as Hd2.
    pose proof (Zdigits2_succ (shr_m mrs1) Hm1) as Hd3.
    pose proof (Zdigits2_nonneg m) as Hd0.
    unfold fexp64 in *. lia. }
  destruct (Z.leb_spec e2 (1024 - 53)); [done|lia].
Qed.

Lemma binary_round_aux_pos s m e l :
  1 <= m -> -1074 <= e ->
  (exists m' e', binary_round_aux 53 1024 s m e l = S754_finite s m' e' /\ e <= e') \/
  binary_round_aux 53 1024 s m e l = S754_infinity s.
Proof.
  intros Hm He. unfold binary_round_aux.
  destruct (shr_fexp_spec m e l ltac:(lia)) as [H1m H1e].
  destruct (shr_fexp 53 1024 m e l) as [mrs1 e1]. simpl in H1m, H1e.
  set (m2 := round_nearest_even (shr_m mrs1) (loc_of_shr_record mrs1)).
  pose proof (round_nearest_even_bounds (shr_m mrs1) (loc_of_shr_record mrs1)) as Hr.
  fold m2 in Hr.
  pose proof (Zdigits2_pos m ltac:(lia)) as Hd.
  assert (1 <= shr_m mrs1) as Hm1.
  { rewrite H1m. apply shiftr_pos; [done|]. unfold fexp64. lia. }
  assert (1 <= m2) as Hm2 by lia.
  destruct (shr_fexp_spec m2 e1 loc_Exact ltac:(lia)) as [H2m H2e].
  destruct (shr_fexp 53 1024 m2 e1 loc_Exact) as [mrs2 e2]. simpl in H2m, H2e.
  pose proof (Zdigits2_pos m2 ltac:(lia)) as Hd2.
  assert (1 <= shr_m mrs2) as Hm3.
  { rewrite H2m. apply shiftr_pos; [done|]. unfold fexp64. lia. }
  destruct (shr_m mrs2) as [|p|p] eqn:Ep; [lia| |lia].
  destruct (Z.leb_spec e2 (1024 - 53)); [|by right].
  left. exists p, e2. split; [done|]. unfold fexp64 in *. lia.
Qed.

(** [float(n)] of a positive integer is a positive number or [+inf]. *)
Lemma of_int_pos n :
  1 <= n ->
  (exists m e, F64.of_int n = S754_finite false m e /\ -52 <= e) \/
  F64.of_int n = S754_infinity false.
Proof.
  intros Hn. destruct n as [|p|p]; [lia| |lia].
  unfold F64.of_int, F64.prec, F64.emax, binary_normalize, binary_round.
  destruct (shl_align p 0 (fexp 53 1024 (Z.pos (digits2_pos p) + 0)))
    as [mz ez] eqn:E.
  assert (-52 <= ez) as Hez.
  { unfold shl_align in E.
    change (fexp 53 1024 (Z.pos (digits2_pos p) + 0))
      with (fexp64 (Z.pos (digits2_pos p) + 0)) in E.
    unfold fexp64 in E.
    destruct (_ - 0) eqn:E2 in E; injection E as <- <-; lia. }
  destruct (binary_round_aux_pos false (Z.pos mz) ez loc_Exact ltac:(lia) ltac:(lia))
    as [(m' & e' & -> & He') | -> ].
  - left. exists m', e'. split; [done|lia].
  - by right.
Qed.

Lemma div_finite sx mx ex y :
  ex <= -52 -> Zdigits2 (Z.pos mx) + ex <= 1 ->
  (exists sy, y = S754_infinity sy) \/
  (exists sy my ey, y = S754_finite sy my ey /\ -52 <= ey) ->
  F64.is_finite (F64.div (S754_finite sx mx ex) y) = true.
Proof.
  intros Hex Hmag [[sy ->]|(sy & my & ey & -> & Hey)]; [done|].
  unfold F64.div, F64.prec, F64.emax, SFdiv, SFdiv_core_binary.
  set (e' := Z.min _ _).
  set (s := ex - ey - e').
  set (m' := match s with Z.pos _ => Z.shiftl (Z.pos mx) s | 0 => Z.pos mx | Z.neg _ => 0 end).
  assert (0 <= s) as Hs.
  { unfold s.
    pose proof (Z.le_min_r (fexp 53 1024 (Zdigits2 (Z.pos mx) + ex - (Zdigits2 (Z.pos my) + ey)))
                           (ex - ey)) as Hmin.
    fold e' in Hmin. lia. }
  assert (m' = Z.shiftl (Z.pos mx) s) as Hm'.
  { unfold m'. destruct s; [by rewrite Z.shiftl_0_r|done|lia]. }
  assert (0 < m') as Hm'pos.
  { rewrite Hm', Z.shiftl_mul_pow2 by done.
    apply Z.mul_pos_pos; [done|]. by apply Z.pow_pos_nonneg. }
  pose proof (Z_div_mod m' (Z.pos my) ltac:(done)) as Hdiv.
  destruct (Z.div_eucl m' (Z.pos my)) as [q r].
  destruct Hdiv as [Hq Hr].
  assert (0 <= q <= m') as Hqb by nia.
  assert (e' <= ex - ey) as He' by (unfold e'; apply Z.le_min_r).
  apply (binary_round_aux_finite _ q e' _ 0 53); try lia.
  pose proof (Zdigits2_mono q m' Hqb) as Hd.
  rewrite Hm', Zdigits2_shiftl in Hd by done.
  unfold s in Hd. lia.
Qed.

Lemma ogrid_axis_lookup start span n (k : nat) :
  (Z.of_nat k < Z.abs n) ->
  ogrid_axis start span n !! k = Some (ogrid_sample start span n (Z.of_nat k)).
Proof.
  intros Hk. unfold ogrid_axis. rewrite list_lookup_fmap.
  rewrite lookup_seqZ_lt by done. simpl. by rewrite Z.add_0_l.
Qed.

Lemma ogrid_step_finite sx mx n :
  Zdigits2 (Z.pos mx) <= 53 ->
  n <> 0 ->
  F64.is_finite (ogrid_step (S754_finite sx mx (-52)) n) = true.
Proof.
  intros Hd Hn. unfold ogrid_step.
  destruct (Z.eqb_spec (Z.abs n) 1) as [_|Hne]; [done|].
  apply div_finite; [lia|lia|].
  destruct (of_int_pos (Z.abs n - 1) ltac:(lia)) as [(m & e & -> & He)| ->].
  - right. by exists false, m, e.
  - left. by exists false.
Qed.

Lemma first_sample start step :
  F64.is_finite step = true ->
  (exists s m e, start = S754_finite s m e) ->
  F64.add (F64.mul (F64.of_int 0) step) start = start.
Proof.
  intros Hstep (s & m & e & ->).
  by destruct step.
Qed.

Lemma ogrid_y_first height :
  height <> 0 ->
  ogrid_sample (F64.of_int (-1)) (F64.of_int (0 - (-1))) height 0 = F64.of_int (-1).
Proof.
  intros Hh. unfold ogrid_sample. apply first_sample.
  - change (F64.of_int (0 - -1)) with (S754_finite false 4503599627370496 (-52)).
    by apply ogrid_step_finite.
  - by eexists _, _, _.
Qed.

Lemma ogrid_x_first width :
  width <> 0 ->
  ogrid_sample (F64.opp F64.lit_1_5)
               (F64.sub (F64.of_int 0) (F64.opp F64.lit_1_5)) width 0 =
  F64.opp F64.lit_1_5.
Proof.
  intros Hw. unfold ogrid_sample. apply first_sample.
  - change (F64.sub (F64.of_int 0) (F64.opp F64.lit_1_5))
      with (S754_finite false 6755399441055744 (-52)).
    by apply ogrid_step_finite.
  - by eexists _, _, _.
Qed.

(* ===================================================================== *)
(** * The cells of the grid and of the two fields *)
(* ===================================================================== *)

Lemma coordinates_cell height width row col :
  0 <= row < Z.abs height -> 0 <= col < Z.abs width ->
  Nd.get (coordinates height width) row col = Some (grid_point height width row col).
Proof.
  intros Hr Hc.
  replace row with (Z.of_nat (Z.to_nat row)) by lia.
  replace col with (Z.of_nat (Z.to_nat col)) by lia.
  unfold grid_point.
  eapply get_nat.
  - apply well_shaped_coordinates.
  - unfold coordinates, Nd.outer. simpl. rewrite list_lookup_fmap.
    unfold ogrid_y. rewrite ogrid_axis_lookup by lia. reflexivity.
  - rewrite list_lookup_fmap.
    unfold ogrid_x. rewrite ogrid_axis_lookup by lia. reflexivity.
Qed.

Lemma python_field_cell hypot height width row col :
  0 <= row < height -> 0 <= col < width ->
  Nd.get (python_field hypot height width) row col =
  Some (escape_time (abs_gt_2 hypot) (grid_point height width row col)).
Proof.
  intros Hr Hc. unfold python_field.
  destruct (Z.ltb_spec 0 height); [|lia].
  destruct (Z.ltb_spec 0 width); [|lia]. cbn [andb].
  rewrite get_map, coordinates_cell by lia. reflexivity.
Qed.

Lemma numpy_field_cell height width row col :
  0 <= row < Z.abs height -> 0 <= col < Z.abs width ->
  Nd.get (numpy_field height width) row col =
  Some (cell_run (grid_point height width row col) (range 20)).2.
Proof.
  intros Hr Hc. unfold numpy_field.
  rewrite get_map, coordinates_cell by lia. reflexivity.
Qed.

(** ** The orbit of zero *)



(** ** The batched kernel records the first escape *)

(** Once a cell of [fractal] differs from 20 no pass writes it again. *)
Lemma cell_run_recorded cv iters : forall z f,
  f <> 20 -> (fold_left (cell_step cv) iters (z, f)).2 = f.
Proof.
  induction iters as [|i iters IH]; intros z f Hf; [done|].
  simpl. unfold cell_step at 2. simpl.
  destruct (Z.eqb_spec f 20) as [|_]; [done|].
  rewrite andb_false_r. by apply IH.
Qed.

Lemma cell_run_first_escape cv iters : forall z,
  (forall i, i ∈ iters -> i <> 20) ->
  (fold_left (cell_step cv) iters (z, 20)).2 =
  default 20 (first_escape norm2_gt_4 cv z iters).
Proof.
  induction iters as [|i iters IH]; intros z Hin; [done|].
  simpl. unfold cell_step at 2. simpl.
  destruct (norm2_gt_4 (advance cv z)) eqn:Ht; simpl.
  - apply cell_run_recorded. apply Hin. by left.
  - apply IH. intros i' Hi'. apply Hin. by right.
Qed.


(** ** When the two tests agree *)





(** ** Rounding at the threshold, and at the last sample *)

(** The cell [(311971, 0)] of the grid of height 44628208 and width 1: after
    one update [z] has [z.real**2 + z.imag**2] equal to the number after 4,
    while [|z|] is within 0.4 units in the last place of 2.  The batched
    kernel records 0 there; the scalar kernel does not, for any [hypot]
    that returns at most 2 at that [z], as one that errs by less than half
    a unit does. *)
Lemma threshold_cell hypot :
  abs_gt_2 hypot (Complex (S754_finite true 8505245244017288 (-55))
                          (S754_finite false 8944234929091502 (-52))) = false ->
  Nd.get (numpy_field 44628208 1) 311971 0 = Some 0 /\
  Nd.get (python_field hypot 44628208 1) 311971 0 <> Some 0.
Proof.
  intros Habs. split.
  - rewrite numpy_field_cell by lia. vm_compute. reflexivity.
  - rewrite python_field_cell by lia. intros [= Hesc].
    destruct (escape_time_least (abs_gt_2 hypot) (grid_point 44628208 1 311971 0))
      as [(_ & Ht & _)|[H20 _]]; [|lia].
    rewrite Hesc in Ht.
    assert (orbit (grid_point 44628208 1 311971 0) (S (Z.to_nat 0)) =
            Complex (S754_finite true 8505245244017288 (-55))
                    (S754_finite false 8944234929091502 (-52))) as Horb
      by (vm_compute; reflexivity).
    rewrite Horb in Ht. congruence.
Qed.

(** On every grid of 2 to 50 rows and columns the last cell holds 20, also
    where its coordinate is not zero: a coordinate of a few units in the
    last place of 1 has a bounded orbit. *)
Lemma last_cell_small_grids :
  forallb (fun h =>
    forallb (fun w =>
      escape_time (abs_gt_2 hypot_c99) (grid_point h w (h - 1) (w - 1)) =? 20)
      (seqZ 2 49))
    (seqZ 2 49) = true.
Proof. vm_compute. reflexivity. Qed.

(* ===================================================================== *)
(** * The properties of the specification *)
(* ===================================================================== *)

(** C1.  For a positive height and width, every cell [(row, col)] of
    [mandelbrot_python(height, width)] holds the least index [i] in
    [[0, 20)] such that the orbit [z_0 = c], [z_(k+1) = z_k**2 + c] of the
    coordinate [c] of the cell has [|z_(i+1)| > 2], and holds 20 when there
    is no such index. *)
Theorem mandelbrot_python_least_escape hypot height width (s : store) :
  0 < height -> 0 < width ->
  exists F,
    returned_field (mandelbrot_python hypot height width) s = inr F /\
    forall row col, 0 <= row < height -> 0 <= col < width ->
      exists cv v,
        Nd.get (coordinates height width) row col = Some cv /\
        Nd.get F row col = Some v /\
        least_escape (abs_gt_2 hypot) cv v.
Proof.
  intros Hh Hw. exists (python_field hypot height width).
  split; [apply returned_field_python|].
  intros row col Hr Hc.
  exists (grid_point height width row col),
         (escape_time (abs_gt_2 hypot) (grid_point height width row col)).
  split; [apply coordinates_cell; lia|].
  split; [by apply python_field_cell|].
  apply escape_time_least.
Qed.

Lemma mandelbrot_python_least_escape_witness :
  0 < 3 /\ 0 < 3 /\
  exists F,
    returned_field (mandelbrot_python hypot_c99 3 3) [] = inr F /\
    forall row col, 0 <= row < 3 -> 0 <= col < 3 ->
      exists cv v,
        Nd.get (coordinates 3 3) row col = Some cv /\
        Nd.get F row col = Some v /\
        least_escape (abs_gt_2 hypot_c99) cv v.
Proof.
  split; [lia|]. split; [lia|].
  apply (mandelbrot_python_least_escape hypot_c99 3 3 []); lia.
Defined.




(** C3, as amended.  A dimension that is not positive is not rejected: both
    kernels return a field of shape [(|height|, |width|)], without raising,
    and in the field of [mandelbrot_python] every cell is the initial 20. *)
Theorem nonpositive_dimension_returns_field hypot height width (s : store) :
  height <= 0 \/ width <= 0 ->
  exists F G,
    returned_field (mandelbrot_python hypot height width) s = inr F /\
    returned_field (mandelbrot_numpy height width) s = inr G /\
    shape F = (Z.to_nat (Z.abs height), Z.to_nat (Z.abs width)) /\
    shape G = (Z.to_nat (Z.abs height), Z.to_nat (Z.abs width)) /\
    Forall (Forall (fun v => v = 20)) (rows F).
Proof.
  intros Hd.
  exists (python_field hypot height width), (numpy_field height width).
  split; [apply returned_field_python|].
  split; [apply returned_field_numpy|].
  split; [apply shape_python_field|].
  split; [apply shape_numpy_field|].
  unfold python_field.
  assert ((0 <? height) && (0 <? width) = false) as ->.
  { destruct (Z.ltb_spec 0 height), (Z.ltb_spec 0 width); try done; lia. }
  by apply Forall_cells_full.
Qed.

Lemma nonpositive_dimension_returns_field_witness :
  (0 <= 0 \/ 3 <= 0) /\
  exists F G,
    returned_field (mandelbrot_python hypot_c99 0 3) [] = inr F /\
    returned_field (mandelbrot_numpy 0 3) [] = inr G /\
    shape F = (Z.to_nat (Z.abs 0), Z.to_nat (Z.abs 3)) /\
    shape G = (Z.to_nat (Z.abs 0), Z.to_nat (Z.abs 3)) /\
    Forall (Forall (fun v => v = 20)) (rows F).
Proof.
  split; [left; lia|].
  apply (nonpositive_dimension_returns_field hypot_c99 0 3 []). left. lia.
Defined.

(** C3 as stated fails: with height 0 the scalar kernel returns an empty
    field, and with width -1 the batched kernel computes a field of width
    1; neither raises. *)
Lemma nonpositive_dimension_not_rejected :
  returned_field (mandelbrot_python hypot_c99 0 1) [] = inr (NdArray (0%nat, 1%nat) []) /\
  returned_field (mandelbrot_numpy 1 (-1)) [] = inr (NdArray (1%nat, 1%nat) [[0]]).
Proof. split; vm_compute; reflexivity. Qed.




(** C5.  For a positive height and width every cell of the field returned
    by [mandelbrot_python] and by [mandelbrot_numpy] is in [[0, 20]]. *)
Theorem fields_in_range hypot height width (s : store) :
  0 < height -> 0 < width ->
  exists F G,
    returned_field (mandelbrot_python hypot height width) s = inr F /\
    returned_field (mandelbrot_numpy height width) s = inr G /\
    cells_in_range F /\ cells_in_range G.
Proof.
  intros Hh Hw.
  exists (python_field hypot height width), (numpy_field height width).
  split; [apply returned_field_python|].
  split; [apply returned_field_numpy|].
  split.
  - unfold python_field. destruct (_ && _).
    + apply Forall_cells_map. intros cv. apply escape_time_range.
    + by apply Forall_cells_full.
  - apply Forall_cells_map. intros cv. apply cell_run_range, range_20_elem.
Qed.

Lemma fields_in_range_witness :
  0 < 3 /\ 0 < 4 /\
  exists F G,
    returned_field (mandelbrot_python hypot_c99 3 4) [] = inr F /\
    returned_field (mandelbrot_numpy 3 4) [] = inr G /\
    cells_in_range F /\ cells_in_range G.
Proof.
  split; [lia|]. split; [lia|].
  apply (fields_in_range hypot_c99 3 4 []); lia.
Defined.

(** C6.  For a positive height and width the field returned by
    [mandelbrot_python] and by [mandelbrot_numpy] has shape
    [(height, width)], and every cell of it holds a value. *)
Theorem fields_shape hypot height width (s : store) :
  0 < height -> 0 < width ->
  exists F G,
    returned_field (mandelbrot_python hypot height width) s = inr F /\
    returned_field (mandelbrot_numpy height width) s = inr G /\
    shape F = (Z.to_nat height, Z.to_nat width) /\
    shape G = (Z.to_nat height, Z.to_nat width) /\
    well_shaped F /\ well_shaped G /\
    forall row col, 0 <= row < height -> 0 <= col < width ->
      is_Some (Nd.get F row col) /\ is_Some (Nd.get G row col).
Proof.
  intros Hh Hw.
  exists (python_field hypot height width), (numpy_field height width).
  split; [apply returned_field_python|].
  split; [apply returned_field_numpy|].
  split; [rewrite shape_python_field; f_equal; lia|].
  split; [rewrite shape_numpy_field; f_equal; lia|].
  split; [apply well_shaped_python_field|].
  split; [apply well_shaped_numpy_field|].
  intros row col Hr Hc. split.
  - rewrite python_field_cell by done. by eexists.
  - rewrite numpy_field_cell by lia. by eexists.
Qed.

Lemma fields_shape_witness :
  0 < 3 /\ 0 < 4 /\
  exists F G,
    returned_field (mandelbrot_python hypot_c99 3 4) [] = inr F /\
    returned_field (mandelbrot_numpy 3 4) [] = inr G /\
    shape F = (Z.to_nat 3, Z.to_nat 4) /\
    shape G = (Z.to_nat 3, Z.to_nat 4) /\
    well_shaped F /\ well_shaped G /\
    forall row col, 0 <= row < 3 -> 0 <= col < 4 ->
      is_Some (Nd.get F row col) /\ is_Some (Nd.get G row col).
Proof.
  split; [lia|]. split; [lia|].
  apply (fields_shape hypot_c99 3 4 []); lia.
Defined.

(** C7, as amended.  For a height and width above 1 the coordinate of the
    cell [(row, col)] is [x + y*1j] for the samples
    [x = col * (1.5 / (width-1)) + (-1.5)] and
    [y = row * (1 / (height-1)) + (-1)], every operation rounded to
    binary64.  Row 0 and column 0 give the first bounds exactly, and the
    cell [(0, 0)] is [-1.5 - 1j]; the last row and column give what
    [(n-1) * step + start] rounds to. *)
Theorem grid_samples height width :
  1 < height -> 1 < width ->
  let x0 := F64.opp F64.lit_1_5 in
  let y0 := F64.of_int (-1) in
  let sx := F64.div F64.lit_1_5 (F64.of_int (width - 1)) in
  let sy := F64.div (F64.of_int 1) (F64.of_int (height - 1)) in
  let x col := F64.add (F64.mul (F64.of_int col) sx) x0 in
  let y row := F64.add (F64.mul (F64.of_int row) sy) y0 in
  (forall row col, 0 <= row < height -> 0 <= col < width ->
     Nd.get (coordinates height width) row col = Some (x_plus_yj (x col) (y row))) /\
  x 0 = x0 /\ y 0 = y0 /\
  Nd.get (coordinates height width) 0 0 = Some (Complex x0 y0).
Proof.
  intros Hh Hw x0 y0 sx sy x y.
  assert (forall row col, grid_point height width row col = x_plus_yj (x col) (y row)) as Hgp.
  { intros row col. unfold grid_point, ogrid_sample, ogrid_step.
    destruct (Z.eqb_spec (Z.abs width) 1) as [?|_]; [lia|].
    destruct (Z.eqb_spec (Z.abs height) 1) as [?|_]; [lia|].
    replace (Z.abs width) with width by lia.
    replace (Z.abs height) with height by lia. reflexivity. }
  assert (x 0 = x0) as Hx0.
  { pose proof (ogrid_x_first width ltac:(lia)) as H.
    unfold ogrid_sample, ogrid_step in H.
    destruct (Z.eqb_spec (Z.abs width) 1) as [?|_]; [lia|].
    replace (Z.abs width) with width in H by lia. exact H. }
  assert (y 0 = y0) as Hy0.
  { pose proof (ogrid_y_first height ltac:(lia)) as H.
    unfold ogrid_sample, ogrid_step in H.
    destruct (Z.eqb_spec (Z.abs height) 1) as [?|_]; [lia|].
    replace (Z.abs height) with height in H by lia. exact H. }
  split; [|split; [exact Hx0|split; [exact Hy0|]]].
  - intros row col Hr Hc. rewrite coordinates_cell by lia. by rewrite Hgp.
  - rewrite coordinates_cell by lia. rewrite Hgp, Hx0, Hy0. reflexivity.
Qed.

Lemma grid_samples_witness :
  1 < 50 /\ 1 < 48 /\
  let x0 := F64.opp F64.lit_1_5 in
  let y0 := F64.of_int (-1) in
  let sx := F64.div F64.lit_1_5 (F64.of_int (48 - 1)) in
  let sy := F64.div (F64.of_int 1) (F64.of_int (50 - 1)) in
  let x col := F64.add (F64.mul (F64.of_int col) sx) x0 in
  let y row := F64.add (F64.mul (F64.of_int row) sy) y0 in
  (forall row col, 0 <= row < 50 -> 0 <= col < 48 ->
     Nd.get (coordinates 50 48) row col = Some (x_plus_yj (x col) (y row))) /\
  x 0 = x0 /\ y 0 = y0 /\
  Nd.get (coordinates 50 48) 0 0 = Some (Complex x0 y0).
Proof.
  split; [lia|]. split; [lia|].
  apply (grid_samples 50 48); lia.
Defined.

(** C7 as stated fails at the last bounds: with 50 rows the last row has
    imaginary part [-2^-53], and with 48 columns the last column has real
    part [-2^-52], not 0. *)
Lemma last_samples_not_last_bound :
  (exists cv, Nd.get (coordinates 50 2) (50 - 1) 0 = Some cv /\
              imag cv = S754_finite true 4503599627370496 (-105) /\
              F64.eqb (imag cv) (F64.of_int 0) = false) /\
  (exists cv, Nd.get (coordinates 2 48) 0 (48 - 1) = Some cv /\
              real cv = S754_finite true 4503599627370496 (-104) /\
              F64.eqb (real cv) (F64.of_int 0) = false).
Proof.
  split; eexists; (split; [vm_compute; reflexivity|]); split; reflexivity.
Qed.




(** C9.  Both kernels are deterministic: the field a call returns is a
    function of [(height, width)] alone, whatever the store it starts
    from. *)
Theorem kernels_deterministic hypot height width (s1 s2 : store) :
  returned_field (mandelbrot_python hypot height width) s1 =
  returned_field (mandelbrot_python hypot height width) s2 /\
  returned_field (mandelbrot_numpy height width) s1 =
  returned_field (mandelbrot_numpy height width) s2.
Proof. by rewrite !returned_field_python, !returned_field_numpy. Qed.

(** C10.  In [mandelbrot_numpy] the name [z] starts as an alias of [c], but
    the in-place writes never reach [c]: after any number of passes of the
    loop, and so when the function returns, [c] holds the grid it was built
    with; after the first pass [z] is bound to another array; and the
    arrays of the caller are as they were. *)
Theorem coordinates_not_modified height width (s : store) :
  exists c (s0 : store),
    alloc (CArray (coordinates height width)) s = inr (c, s0) /\
    s0 !! c = Some (CArray (coordinates height width)) /\
    (forall passes, exists fr (s' : store),
       numpy_frame_after passes height width s = inr (fr, s') /\
       f_c fr = c /\
       s' !! c = Some (CArray (coordinates height width)) /\
       (0 < passes -> f_z fr <> Some c)) /\
    exists fr (s' : store),
      mandelbrot_numpy_frame height width s = inr (fr, s') /\
      f_c fr = c /\
      s' !! c = Some (CArray (coordinates height width)) /\
      f_z fr <> Some c /\
      forall l, (l < length s)%nat -> s' !! l = s !! l.
Proof.
  exists (length s), (s ++ [CArray (coordinates height width)]).
  split; [reflexivity|].
  split; [rewrite lookup_app_r by lia; by rewrite Nat.sub_diag|].
  split.
  - intros passes.
    destruct (numpy_frame_after_run passes height width s)
      as (z & s' & Hrun & (Hc & _ & _) & Hz & _).
    eexists _, s'. split; [exact Hrun|]. split; [reflexivity|].
    split; [exact Hc|]. simpl. intros Hp [= ->]. specialize (Hz Hp). lia.
  - destruct (mandelbrot_numpy_frame_run height width s)
      as (z & s' & Hrun & Hc & _ & Hz & Hfr).
    eexists _, s'. split; [exact Hrun|]. split; [reflexivity|].
    split; [exact Hc|]. split; [|exact Hfr].
    simpl. intros [= ->]. lia.
Qed.

(* ===================================================================== *)
(** * Further properties of the two kernels *)
(* ===================================================================== *)

Lemma get_map_Some {T U} (f : T -> U) (a : ndarray T) h w y :
  Nd.get (Nd.map f a) h w = Some y ->
  exists x, Nd.get a h w = Some x /\ y = f x.
Proof.
  rewrite get_map. destruct (Nd.get a h w) as [x|]; [|done].
  simpl. intros [= <-]. by exists x.
Qed.

Lemma range_snoc k : 0 <= k -> range (k + 1) = range k ++ [k].
Proof. intros Hk. unfold range. rewrite seqZ_app by lia. by rewrite Z.add_0_l. Qed.


Lemma first_escape_elem test cv iters : forall z i,
  first_escape test cv z iters = Some i -> i ∈ iters.
Proof.
  induction iters as [|j iters IH]; intros z i; [done|].
  simpl. destruct (test (advance cv z)).
  - intros [= ->]. by left.
  - intros H. right. by eapply IH.
Qed.

Lemma first_escape_app test cv iters1 iters2 : forall z,
  first_escape test cv z (iters1 ++ iters2) =
  match first_escape test cv z iters1 with
  | Some i => Some i
  | None => first_escape test cv (Nat.iter (length iters1) (advance cv) z) iters2
  end.
Proof.
  induction iters1 as [|j iters1 IH]; intros z; [done|].
  simpl. destruct (test (advance cv z)); [done|].
  rewrite IH. by rewrite iter_advance.
Qed.

(** The cell of [fractal] after [k] of the 20 passes is the final cell cut
    at [k]. *)
Lemma cell_run_prefix cv k :
  0 <= k <= 20 ->
  (cell_run cv (range k)).2 =
  if (cell_run cv (range 20)).2 <? k then (cell_run cv (range 20)).2 else 20.
Proof.
  intros Hk. unfold cell_run.
  rewrite !cell_run_first_escape;
    try (intros i Hi; unfold range in Hi; apply elem_of_seqZ in Hi; lia).
  assert (range 20 = range k ++ seqZ k (20 - k)) as ->.
  { unfold range. replace 20 with (k + (20 - k)) at 1 by lia.
    rewrite seqZ_app by lia. by rewrite Z.add_0_l. }
  rewrite first_escape_app.
  destruct (first_escape norm2_gt_4 cv cv (range k)) as [i|] eqn:E1; simpl.
  - apply first_escape_elem in E1. unfold range in E1.
    apply elem_of_seqZ in E1. destruct (Z.ltb_spec i k); [done|lia].
  - destruct (first_escape norm2_gt_4 cv _ (seqZ k (20 - k))) as [j|] eqn:E2; simpl.
    + apply first_escape_elem, elem_of_seqZ in E2.
      destruct (Z.ltb_spec j k); [lia|done].
    + destruct (Z.ltb_spec 20 k); [lia|done].
Qed.


Lemma norm2_gt_4_two : norm2_gt_4 two_c = false.
Proof. reflexivity. Qed.

(** After a pass no cell of [z] passes the divergence test. *)
Lemma cell_step_clamped cv st i : norm2_gt_4 (cell_step cv st i).1 = false.
Proof.
  unfold cell_step. simpl.
  destruct (norm2_gt_4 (advance cv st.1)) eqn:E; [apply norm2_gt_4_two|exact E].
Qed.

Lemma ogrid_axis_abs start span n :
  ogrid_axis start span (Z.abs n) = ogrid_axis start span n.
Proof.
  unfold ogrid_axis, ogrid_sample, ogrid_step. by rewrite Z.abs_idemp.
Qed.

Lemma coordinates_abs height width :
  coordinates (Z.abs height) (Z.abs width) = coordinates height width.
Proof.
  unfold coordinates, ogrid_x, ogrid_y. by rewrite !ogrid_axis_abs.
Qed.

Lemma grid_point_corner height width :
  height <> 0 -> width <> 0 ->
  grid_point height width 0 0 = Complex (F64.opp F64.lit_1_5) (F64.of_int (-1)).
Proof.
  intros Hh Hw. unfold grid_point.
  by rewrite ogrid_x_first, ogrid_y_first.
Qed.



(** X2.  In [mandelbrot_numpy], after any positive number of passes no cell
    of the array [z] is bound to has [z.real**2 + z.imag**2 > 4]: the
    values that are squared in the next pass stay inside the threshold. *)
Theorem numpy_z_clamped passes height width (s : store) :
  0 < passes ->
  exists fr (s' : store) z,
    numpy_frame_after passes height width s = inr (fr, s') /\
    f_z fr = Some z /\
    forall row col zv, cell_c z s' row col = Some zv -> norm2_gt_4 zv = false.
Proof.
  intros Hp.
  destruct (numpy_frame_after_run passes height width s)
    as (z & s' & Hrun & (_ & _ & Hz) & _).
  eexists _, s', z. split; [exact Hrun|]. split; [reflexivity|].
  intros row col zv. unfold cell_c. rewrite Hz.
  intros (cv & _ & ->)%get_map_Some.
  replace passes with ((passes - 1) + 1) by lia.
  rewrite range_snoc by lia. rewrite cell_run_snoc. apply cell_step_clamped.
Qed.

Lemma numpy_z_clamped_witness :
  0 < 20 /\
  exists fr (s' : store) z,
    numpy_frame_after 20 3 3 [] = inr (fr, s') /\
    f_z fr = Some z /\
    forall row col zv, cell_c z s' row col = Some zv -> norm2_gt_4 zv = false.
Proof.
  split; [lia|]. apply (numpy_z_clamped 20 3 3 []). lia.
Defined.



(** X4.  In [mandelbrot_numpy], the array [fractal] after [k] of the 20
    passes is the returned field cut at [k]: a cell of the field below [k]
    is already there, every other cell is still 20.  An index, once
    recorded, is final. *)
Theorem numpy_passes_truncate_field k height width (s : store) :
  0 <= k <= 20 ->
  exists fr (s' : store) G,
    numpy_frame_after k height width s = inr (fr, s') /\
    returned_field (mandelbrot_numpy height width) s = inr G /\
    forall row col v,
      Nd.get G row col = Some v ->
      cell_i (f_fractal fr) s' row col = Some (if v <? k then v else 20).
Proof.
  intros Hk.
  destruct (numpy_frame_after_run k height width s)
    as (z & s' & Hrun & (_ & Hf & _) & _).
  eexists _, s', (numpy_field height width).
  split; [exact Hrun|]. split; [apply returned_field_numpy|].
  intros row col v. unfold numpy_field.
  intros (cv & Hcv & ->)%get_map_Some.
  cbn [f_fractal]. unfold cell_i. rewrite Hf, get_map, Hcv.
  cbn [fmap option_fmap option_map]. f_equal.
  exact (cell_run_prefix cv k Hk).
Qed.

Lemma numpy_passes_truncate_field_witness :
  0 <= 2 <= 20 /\
  exists fr (s' : store) G,
    numpy_frame_after 2 3 3 [] = inr (fr, s') /\
    returned_field (mandelbrot_numpy 3 3) [] = inr G /\
    forall row col v,
      Nd.get G row col = Some v ->
      cell_i (f_fractal fr) s' row col = Some (if v <? 2 then v else 20).
Proof.
  split; [lia|]. apply (numpy_passes_truncate_field 2 3 3 []). lia.
Defined.

(** X5.  [mandelbrot_python] writes no array but [fractal]: when it returns,
    the arrays of the caller are as they were and [c] is the grid it was
    built with, for every height and width. *)
Theorem mandelbrot_python_writes_only_fractal hypot height width (s : store) :
  exists fr (s' : store),
    mandelbrot_python_frame hypot height width s = inr (fr, s') /\
    (forall l, (l < length s)%nat -> s' !! l = s !! l) /\
    s' !! f_c fr = Some (CArray (coordinates height width)) /\
    f_c fr <> f_fractal fr /\
    (length s <= f_c fr)%nat /\ (length s <= f_fractal fr)%nat.
Proof.
  eexists _, _. split; [apply mandelbrot_python_frame_run|].
  simpl. split; [|split; [apply lookup_frame_c|lia]].
  intros l Hl. by rewrite lookup_app_l.
Qed.

(** X6.  [mandelbrot_numpy] depends on the absolute values of its arguments
    only: a negative height or width gives the field of its absolute
    value. *)
Theorem mandelbrot_numpy_abs_dimensions height width (s : store) :
  returned_field (mandelbrot_numpy height width) s =
  returned_field (mandelbrot_numpy (Z.abs height) (Z.abs width)) s.
Proof.
  rewrite !returned_field_numpy. unfold numpy_field.
  by rewrite coordinates_abs.
Qed.

(** X7.  The cell [(0, 0)] is the corner [-1.5 - 1j] of the grid, whatever
    the height and width, and diverges at the first update, to
    [-0.25 + 2j]: both kernels return 0 there, the scalar one for a
    [hypot] that is above 2 at [(-0.25, 2)]. *)
Theorem corner_cell_is_zero hypot height width (s : store) :
  0 < height -> 0 < width ->
  abs_gt_2 hypot (Complex (S754_finite true 4503599627370496 (-54))
                          (S754_finite false 4503599627370496 (-51))) = true ->
  exists F G,
    returned_field (mandelbrot_python hypot height width) s = inr F /\
    returned_field (mandelbrot_numpy height width) s = inr G /\
    Nd.get F 0 0 = Some 0 /\ Nd.get G 0 0 = Some 0.
Proof.
  intros Hh Hw Habs.
  exists (python_field hypot height width), (numpy_field height width).
  split; [apply returned_field_python|].
  split; [apply returned_field_numpy|].
  assert (orbit (Complex (F64.opp F64.lit_1_5) (F64.of_int (-1))) 1 =
          Complex (S754_finite true 4503599627370496 (-54))
                  (S754_finite false 4503599627370496 (-51))) as Horb
    by (vm_compute; reflexivity).
  split.
  - rewrite python_field_cell, grid_point_corner by lia. f_equal.
    destruct (escape_time_least (abs_gt_2 hypot)
                (Complex (F64.opp F64.lit_1_5) (F64.of_int (-1))))
      as [(Hv & _ & Hless)|[_ Hnone]].
    + destruct (Z.eq_dec (escape_time (abs_gt_2 hypot)
                  (Complex (F64.opp F64.lit_1_5) (F64.of_int (-1)))) 0) as [|Hne];
        [done|].
      specialize (Hless 0 ltac:(lia)).
      change (S (Z.to_nat 0)) with 1%nat in Hless.
      rewrite Horb in Hless. congruence.
    + specialize (Hnone 0 ltac:(lia)).
      change (S (Z.to_nat 0)) with 1%nat in Hnone.
      rewrite Horb in Hnone. congruence.
  - rewrite numpy_field_cell, grid_point_corner by lia.
    vm_compute. reflexivity.
Qed.

Lemma corner_cell_is_zero_witness :
  0 < 200 /\ 0 < 200 /\
  abs_gt_2 hypot_c99 (Complex (S754_finite true 4503599627370496 (-54))
                              (S754_finite false 4503599627370496 (-51))) = true /\
  exists F G,
    returned_field (mandelbrot_python hypot_c99 200 200) [] = inr F /\
    returned_field (mandelbrot_numpy 200 200) [] = inr G /\
    Nd.get F 0 0 = Some 0 /\ Nd.get G 0 0 = Some 0.
Proof.
  split; [lia|]. split; [lia|]. split; [vm_compute; reflexivity|].
  apply (corner_cell_is_zero hypot_c99 200 200 []);
    [lia | lia | vm_compute; reflexivity].
Defined.

(* ===================================================================== *)
(** * The quadratic formula: arrays, loop and parallel loop *)
(* ===================================================================== *)

Lemma broadcast1_same f x y :
  length x = length y -> broadcast1 f x y = inr (zip_with f x y).
Proof. intros H. unfold broadcast1. by rewrite decide_True. Qed.

Lemma of_int_2 : F64.of_int 2 = S754_finite false 4503599627370496 (-51).
Proof. vm_compute. reflexivity. Qed.

Lemma getitem1_nat (x : list F64.t) (j : nat) :
  (j < length x)%nat -> getitem1 x (Z.of_nat j) = x !! j.
Proof. intros H. unfold getitem1. by rewrite norm_index_nat. Qed.

Lemma length_np_empty uninit n : length (np_empty uninit n) = n.
Proof. unfold np_empty. by rewrite length_fmap, length_seq. Qed.

Lemma quadratic_scalar_nonzero a b c :
  F64.is_zero (F64.mul (F64.of_int 2) a) = false ->
  quadratic_scalar a b c = inr (quadratic_element a b c).
Proof. intros H. unfold quadratic_scalar. cbv zeta. by rewrite H. Qed.

(** The array formula cell by cell. *)
Lemma quadratic_formula_cells a b c :
  length b = length a -> length c = length a ->
  exists out,
    quadratic_formula a b c = inr out /\
    length out = length a /\
    forall j, out !! j = quadratic_cell a b c j.
Proof.
  intros Hb Hc. unfold quadratic_formula. cbv zeta.
  rewrite broadcast1_same by (by rewrite length_fmap). cbn [and_then].
  rewrite broadcast1_same
    by (rewrite length_fmap, length_zip_with, length_fmap; lia).
  cbn [and_then].
  rewrite broadcast1_same
    by (rewrite !length_fmap, !length_zip_with, !length_fmap; lia).
  cbn [and_then].
  rewrite broadcast1_same
    by (rewrite !length_zip_with, !length_fmap, !length_zip_with, !length_fmap; lia).
  eexists. split; [reflexivity|]. split.
  - rewrite !length_zip_with, !length_fmap, !length_zip_with, !length_fmap. lia.
  - intros j. unfold quadratic_cell.
    rewrite !lookup_zip_with, !list_lookup_fmap, !lookup_zip_with, !list_lookup_fmap.
    destruct (a !! j) as [ai|] eqn:Ha, (b !! j) as [bi|] eqn:Hbj,
             (c !! j) as [ci|] eqn:Hcj; done.
Qed.

(** The loop cell by cell: the cells of the indices it ran over hold the
    formula, the others what they held. *)
Lemma quadratic_loop_cells a b c idx : forall out,
  (length out <= length a)%nat -> (length out <= length b)%nat ->
  (length out <= length c)%nat ->
  divisors_nonzero a ->
  Forall (fun i => 0 <= i < Z.of_nat (length out)) idx ->
  exists out',
    quadratic_loop a b c out idx = inr out' /\
    length out' = length out /\
    forall j, out' !! j =
      if decide (Z.of_nat j ∈ idx) then quadratic_cell a b c j else out !! j.
Proof.
  induction idx as [|i idx IH]; intros out Ha Hb Hc Hnz Hidx.
  - exists out. split; [done|]. split; [done|]. intros j.
    rewrite decide_False; [done|]. apply not_elem_of_nil.
  - apply Forall_cons_1 in Hidx as [Hi Hidx].
    assert (exists r : nat, i = Z.of_nat r) as [r ->] by (exists (Z.to_nat i); lia).
    assert (r < length out)%nat as Hr by lia.
    destruct (lookup_lt_is_Some_2 a r) as [ai Hai]; [lia|].
    destruct (lookup_lt_is_Some_2 b r) as [bi Hbi]; [lia|].
    destruct (lookup_lt_is_Some_2 c r) as [ci Hci]; [lia|].
    cbn [quadratic_loop].
    rewrite !getitem1_nat by lia. rewrite Hai, Hbi, Hci.
    rewrite norm_index_nat by lia.
    rewrite quadratic_scalar_nonzero
      by (eapply (proj1 (Forall_lookup _ _) Hnz); exact Hai).
    destruct (IH (<[r := quadratic_element ai bi ci]> out))
      as (out' & Hrun & Hlen & Hcells).
    { by rewrite length_insert. } { by rewrite length_insert. }
    { by rewrite length_insert. } { exact Hnz. }
    { by rewrite length_insert. }
    exists out'. split; [exact Hrun|]. split; [by rewrite Hlen, length_insert|].
    intros j. rewrite Hcells.
    destruct (decide (Z.of_nat j ∈ idx)) as [Hin|Hin].
    + rewrite decide_True; [done|]. apply elem_of_cons. by right.
    + destruct (decide (j = r)) as [->|Hne].
      * rewrite decide_True by (apply elem_of_cons; by left).
        rewrite list_lookup_insert_eq by lia.
        unfold quadratic_cell. by rewrite Hai, Hbi, Hci.
      * rewrite decide_False
          by (intros [?|?]%elem_of_cons; [lia|done]).
        by rewrite list_lookup_insert_ne.
Qed.

(** The loop stops at the first zero divisor. *)
Lemma quadratic_loop_zero_divisor a b c idx : forall out (i : nat) s,
  (length out <= length a)%nat -> (length out <= length b)%nat ->
  (length out <= length c)%nat ->
  Forall (fun i => 0 <= i < Z.of_nat (length out)) idx ->
  Z.of_nat i ∈ idx -> a !! i = Some (S754_zero s) ->
  quadratic_loop a b c out idx = inl ZeroDivisionError.
Proof.
  induction idx as [|i0 idx IH]; intros out i s Ha Hb Hc Hidx Hin Hzero.
  - by apply elem_of_nil in Hin.
  - apply Forall_cons_1 in Hidx as [Hi Hidx].
    assert (exists r : nat, i0 = Z.of_nat r) as [r ->] by (exists (Z.to_nat i0); lia).
    assert (r < length out)%nat as Hr by lia.
    destruct (lookup_lt_is_Some_2 a r) as [ai Hai]; [lia|].
    destruct (lookup_lt_is_Some_2 b r) as [bi Hbi]; [lia|].
    destruct (lookup_lt_is_Some_2 c r) as [ci Hci]; [lia|].
    cbn [quadratic_loop].
    rewrite !getitem1_nat by lia. rewrite Hai, Hbi, Hci.
    rewrite norm_index_nat by lia.
    unfold quadratic_scalar. cbv zeta.
    destruct (F64.is_zero (F64.mul (F64.of_int 2) ai)) eqn:Hz; [done|].
    apply elem_of_cons in Hin as [Heq|Hin].
    + replace i with r in Hzero by lia.
      pose proof (eq_trans (eq_sym Hai) Hzero) as [= ->].
      rewrite of_int_2 in Hz. discriminate Hz.
    + apply (IH _ i s); try done; by rewrite length_insert.
Qed.

Lemma range_elem_nat (n j : nat) : Z.of_nat j ∈ range (Z.of_nat n) <-> (j < n)%nat.
Proof. unfold range. rewrite elem_of_seqZ. lia. Qed.

Lemma range_in_bounds (n : nat) :
  Forall (fun i => 0 <= i < Z.of_nat n) (range (Z.of_nat n)).
Proof.
  apply Forall_lookup. intros k i Hi. unfold range in Hi.
  apply lookup_seqZ in Hi. lia.
Qed.

(** What [quadratic_formula_numba_parallel] returns for an order of the
    iterations that covers [range(n)] and nothing else. *)
Lemma quadratic_parallel_cells uninit order a b c :
  (length a <= length b)%nat -> (length a <= length c)%nat ->
  divisors_nonzero a ->
  order ≡ₚ range (Z.of_nat (length a)) ->
  exists out,
    quadratic_formula_numba_parallel uninit order a b c = inr out /\
    length out = length a /\
    forall j, (j < length a)%nat -> out !! j = quadratic_cell a b c j.
Proof.
  intros Hb Hc Hnz Hperm. unfold quadratic_formula_numba_parallel. cbv zeta.
  destruct (quadratic_loop_cells a b c order (np_empty uninit (length a)))
    as (out & Hrun & Hlen & Hcells).
  { by rewrite length_np_empty. } { by rewrite length_np_empty. }
  { by rewrite length_np_empty. } { exact Hnz. }
  { rewrite length_np_empty. rewrite Hperm. apply range_in_bounds. }
  exists out. split; [exact Hrun|]. rewrite length_np_empty in Hlen.
  split; [exact Hlen|].
  intros j Hj. rewrite Hcells. rewrite decide_True; [done|].
  rewrite Hperm. by apply range_elem_nat.
Qed.

Lemma quadratic_numba_as_parallel uninit a b c :
  quadratic_formula_numba uninit a b c =
  quadratic_formula_numba_parallel uninit (range (Z.of_nat (length a))) a b c.
Proof. reflexivity. Qed.

Lemma list_eq_cells (x y : list F64.t) n (cell : nat -> option F64.t) :
  length x = n -> length y = n ->
  (forall j, (j < n)%nat -> x !! j = cell j) ->
  (forall j, (j < n)%nat -> y !! j = cell j) ->
  x = y.
Proof.
  intros Hx Hy Hxc Hyc. apply list_eq. intros j.
  destruct (decide (j < n)%nat) as [Hj|Hj].
  - by rewrite Hxc, Hyc.
  - rewrite !(proj2 (lookup_ge_None _ _)); [done|lia|lia].
Qed.

Lemma quadratic_cell_Some a b c j (ai bi ci : F64.t) :
  a !! j = Some ai -> b !! j = Some bi -> c !! j = Some ci ->
  quadratic_cell a b c j = Some (quadratic_element ai bi ci).
Proof. intros Ha Hb Hc. unfold quadratic_cell. by rewrite Ha, Hb, Hc. Qed.

Lemma quadratic_element_nan a b c :
  is_negative (discriminant a b c) = true ->
  quadratic_element a b c = S754_nan.
Proof.
  unfold quadratic_element.
  change (F64.sub (F64.mul b b) (F64.mul (F64.mul (F64.of_int 4) a) c))
    with (discriminant a b c).
  intros H.
  assert (f64_sqrt (discriminant a b c) = S754_nan) as ->.
  { destruct (discriminant a b c) as [| [|] | | [|] ? ?]; done. }
  assert (F64.add (F64.opp b) S754_nan = S754_nan) as ->
    by (by destruct b as [| | | [|] ? ?]).
  reflexivity.
Qed.

Lemma quadratic_element_zero_divisor s b c :
  F64.is_finite (quadratic_element (S754_zero s) b c) = false.
Proof.
  unfold quadratic_element. rewrite of_int_2.
  change (F64.mul (S754_finite false 4503599627370496 (-51)) (S754_zero s))
    with (S754_zero (xorb false s)).
  by destruct (F64.add _ _) as [| | | [|] ? ?].
Qed.

Lemma broadcast1_inl f x y e : broadcast1 f x y = inl e -> e = ValueError.
Proof.
  unfold broadcast1. destruct (decide _); [done|].
  destruct x as [|? [|? ?]], y as [|? [|? ?]]; congruence.
Qed.

Lemma broadcast1_length f x y out :
  (1 < length x)%nat -> broadcast1 f x y = inr out -> length out = length x.
Proof.
  unfold broadcast1. intros Hx. destruct (decide _) as [Heq|Hne].
  - intros [= <-]. rewrite length_zip_with. lia.
  - destruct x as [|x0 [|x1 x]]; [simpl in Hx; lia..|].
    destruct y as [|y0 [|y1 y]]; [done| |done].
    intros [= <-]. simpl. by rewrite length_fmap.
Qed.

Lemma broadcast1_mismatch f x y :
  (1 < length x)%nat -> (1 < length y)%nat -> length x <> length y ->
  broadcast1 f x y = inl ValueError.
Proof.
  unfold broadcast1. intros Hx Hy Hne. rewrite decide_False by done.
  destruct x as [|x0 [|x1 x]]; [simpl in Hx; lia..|].
  destruct y as [|y0 [|y1 y]]; [simpl in Hy; lia..|]. done.
Qed.

Lemma quadratic_formula_mismatch a b c :
  (1 < length a)%nat -> (1 < length b)%nat -> length a <> length b ->
  quadratic_formula a b c = inl ValueError.
Proof.
  intros Ha Hb Hne. unfold quadratic_formula. cbv zeta.
  destruct (broadcast1 F64.mul _ c) as [e|a4c] eqn:E.
  - apply broadcast1_inl in E as ->. done.
  - assert (length a4c = length a) as Hl.
    { rewrite <- (length_fmap (F64.mul (F64.of_int 4)) a).
      apply (broadcast1_length F64.mul _ c); [rewrite length_fmap; lia|exact E]. }
    cbn [and_then].
    rewrite broadcast1_mismatch; [done| | |]; rewrite ?length_fmap; lia.
Qed.

Section JitLemmas.

Context {K : Type} `{EqDecision K}.
Variable signature : list F64.t -> K.
Variables np_sum np_prod : list F64.t -> F64.t.

(** Every program in the cache is the body with one value of the
    global; a signature not yet in the cache gets the value the global has
    at its first call. *)
Lemma run_script_frozen script : forall (st : jit_state) (frozen : K -> bool),
  (forall k,
     compiled st k = Some (accumulate_body np_sum np_prod (frozen k)) \/
     (compiled st k = None /\
      frozen k = first_value signature script (do_sum st) k)) ->
  (run_script signature np_sum np_prod script st).1 =
  frozen_results signature np_sum np_prod frozen script.
Proof.
  induction script as [|[v|arr] script IH]; intros st frozen Hinv.
  - reflexivity.
  - cbn [run_script frozen_results]. apply IH. intros k.
    destruct (Hinv k) as [?|[? ?]]; [by left|by right].
  - cbn [run_script frozen_results]. unfold accumulate.
    destruct (compiled st (signature arr)) as [program|] eqn:Hc.
    + destruct (run_script signature np_sum np_prod script st) as [rs st''] eqn:Hrun.
      cbn [fst]. f_equal.
      * destruct (Hinv (signature arr)) as [Hk|[Hk _]]; [|congruence].
        rewrite Hc in Hk. by injection Hk as ->.
      * change rs with (rs, st'').1. rewrite <- Hrun. apply IH. intros k.
        destruct (Hinv k) as [?|[Hk Hf]]; [by left|right].
        split; [done|]. rewrite Hf. cbn [first_value].
        rewrite decide_False; [done|]. intros <-. congruence.
    + cbv zeta.
      destruct (run_script signature np_sum np_prod script _) as [rs st''] eqn:Hrun.
      cbn [fst].
      destruct (Hinv (signature arr)) as [Hk|[_ Hf]]; [congruence|].
      cbn [first_value] in Hf. rewrite decide_True in Hf by done.
      f_equal; [by rewrite Hf|].
      change rs with (rs, st'').1. rewrite <- Hrun. apply IH. intros k.
      cbn [compiled do_sum].
      destruct (decide (k = signature arr)) as [->|Hne].
      * left. by rewrite Hf.
      * destruct (Hinv k) as [?|[Hk Hfk]]; [by left|right].
        split; [done|]. rewrite Hfk. cbn [first_value].
        by rewrite decide_False.
Qed.

End JitLemmas.

(* ===================================================================== *)
(** * Further properties of the lecture's compiled functions *)
(* ===================================================================== *)

(** X8.  On arrays of one length whose divisors [2*a[i]] are not zero,
    [quadratic_formula], the written-out [pedantic_quadratic_formula] and
    the compiled loop [quadratic_formula_numba] return the same array,
    with [(-b[i] + sqrt(b[i]**2 - 4*a[i]*c[i])) / (2*a[i])] in cell [i]:
    fusing the nine array operations into one loop changes no value, and
    nothing of what [np.empty] left in [out] is returned. *)
Theorem quadratic_formula_numba_agrees uninit a b c :
  length b = length a -> length c = length a -> divisors_nonzero a ->
  exists out,
    quadratic_formula a b c = inr out /\
    pedantic_quadratic_formula a b c = inr out /\
    quadratic_formula_numba uninit a b c = inr out /\
    length out = length a /\
    forall j ai bi ci,
      a !! j = Some ai -> b !! j = Some bi -> c !! j = Some ci ->
      out !! j = Some (quadratic_element ai bi ci).
Proof.
  intros Hb Hc Hnz.
  destruct (quadratic_formula_cells a b c Hb Hc) as (out & Hrun & Hlen & Hcells).
  destruct (quadratic_parallel_cells uninit (range (Z.of_nat (length a))) a b c)
    as (out' & Hrun' & Hlen' & Hcells'); [lia|lia|done|done|].
  assert (out' = out) as ->.
  { apply (list_eq_cells _ _ (length a) (quadratic_cell a b c)); auto. }
  exists out. split; [exact Hrun|]. split; [exact Hrun|].
  split; [exact Hrun'|]. split; [exact Hlen|].
  intros j ai bi ci Ha Hbj Hcj. rewrite Hcells.
  by apply quadratic_cell_Some.
Qed.

Lemma quadratic_formula_numba_agrees_witness :
  let a := [F64.of_int 1; F64.of_int 2] in
  let b := [F64.of_int 5; F64.of_int 3] in
  let c := [F64.of_int 1; F64.of_int (-1)] in
  length b = length a /\ length c = length a /\ divisors_nonzero a /\
  exists out,
    quadratic_formula a b c = inr out /\
    pedantic_quadratic_formula a b c = inr out /\
    quadratic_formula_numba (fun _ => S754_nan) a b c = inr out /\
    length out = length a /\
    forall j ai bi ci,
      a !! j = Some ai -> b !! j = Some bi -> c !! j = Some ci ->
      out !! j = Some (quadratic_element ai bi ci).
Proof.
  intros a b c.
  assert (divisors_nonzero a) as Hnz by (repeat constructor).
  split; [reflexivity|]. split; [reflexivity|]. split; [exact Hnz|].
  apply (quadratic_formula_numba_agrees (fun _ => S754_nan) a b c);
    [reflexivity | reflexivity | exact Hnz].
Defined.

(** X9.  [quadratic_formula_numba_parallel] returns what the sequential
    loop returns, whatever the order in which the iterations of
    [nb.prange(n)] run: every iteration writes its own cell of [out] and
    reads none. *)
Theorem prange_order_independent uninit order a b c :
  (length a <= length b)%nat -> (length a <= length c)%nat ->
  divisors_nonzero a ->
  order ≡ₚ range (Z.of_nat (length a)) ->
  exists out,
    quadratic_formula_numba uninit a b c = inr out /\
    quadratic_formula_numba_parallel uninit order a b c = inr out.
Proof.
  intros Hb Hc Hnz Hperm.
  destruct (quadratic_parallel_cells uninit order a b c)
    as (out & Hrun & Hlen & Hcells); [done..|].
  destruct (quadratic_parallel_cells uninit (range (Z.of_nat (length a))) a b c)
    as (out' & Hrun' & Hlen' & Hcells'); [done..|].
  assert (out' = out) as ->.
  { apply (list_eq_cells _ _ (length a) (quadratic_cell a b c)); auto. }
  exists out. split; [exact Hrun'|exact Hrun].
Qed.

Lemma prange_order_independent_witness :
  let a := [F64.of_int 1; F64.of_int 2; F64.of_int 3] in
  let b := [F64.of_int 5; F64.of_int 3; F64.of_int 7] in
  let c := [F64.of_int 1; F64.of_int (-1); F64.of_int 2] in
  let order := [2; 0; 1] in
  (length a <= length b)%nat /\ (length a <= length c)%nat /\
  divisors_nonzero a /\
  order ≡ₚ range (Z.of_nat (length a)) /\
  exists out,
    quadratic_formula_numba (fun _ => S754_nan) a b c = inr out /\
    quadratic_formula_numba_parallel (fun _ => S754_nan) order a b c = inr out.
Proof.
  intros a b c order.
  assert (divisors_nonzero a) as Hnz by (repeat constructor).
  assert (order ≡ₚ range (Z.of_nat (length a))) as Hperm.
  { change (range (Z.of_nat (length a))) with [0; 1; 2].
    change order with ([2] ++ [0; 1]). apply Permutation_app_comm. }
  split; [simpl; lia|]. split; [simpl; lia|]. split; [exact Hnz|].
  split; [exact Hperm|].
  apply (prange_order_independent (fun _ => S754_nan) order a b c);
    [simpl; lia | simpl; lia | exact Hnz | exact Hperm].
Defined.

(** X10.  Where the discriminant [b[i]**2 - 4*a[i]*c[i]] is below zero,
    the three functions return [nan] in cell [i] and raise nothing. *)
Theorem negative_discriminant_gives_nan uninit a b c (i : nat) ai bi ci :
  length b = length a -> length c = length a -> divisors_nonzero a ->
  a !! i = Some ai -> b !! i = Some bi -> c !! i = Some ci ->
  is_negative (discriminant ai bi ci) = true ->
  exists out,
    quadratic_formula a b c = inr out /\
    pedantic_quadratic_formula a b c = inr out /\
    quadratic_formula_numba uninit a b c = inr out /\
    out !! i = Some S754_nan.
Proof.
  intros Hb Hc Hnz Ha Hbi Hci Hneg.
  destruct (quadratic_formula_cells a b c Hb Hc) as (out & Hrun & Hlen & Hcells).
  destruct (quadratic_parallel_cells uninit (range (Z.of_nat (length a))) a b c)
    as (out' & Hrun' & Hlen' & Hcells'); [lia|lia|done|done|].
  assert (out' = out) as ->.
  { apply (list_eq_cells _ _ (length a) (quadratic_cell a b c)); auto. }
  exists out. split; [exact Hrun|]. split; [exact Hrun|].
  split; [exact Hrun'|].
  rewrite Hcells, (quadratic_cell_Some a b c i ai bi ci Ha Hbi Hci).
  f_equal. by apply quadratic_element_nan.
Qed.

Lemma negative_discriminant_gives_nan_witness :
  let a := [F64.of_int 1; F64.of_int 2] in
  let b := [F64.of_int 5; F64.of_int 3] in
  let c := [F64.of_int 1; F64.of_int 4] in
  length b = length a /\ length c = length a /\ divisors_nonzero a /\
  a !! 1%nat = Some (F64.of_int 2) /\ b !! 1%nat = Some (F64.of_int 3) /\
  c !! 1%nat = Some (F64.of_int 4) /\
  is_negative (discriminant (F64.of_int 2) (F64.of_int 3) (F64.of_int 4)) = true /\
  exists out,
    quadratic_formula a b c = inr out /\
    pedantic_quadratic_formula a b c = inr out /\
    quadratic_formula_numba (fun _ => S754_zero false) a b c = inr out /\
    out !! 1%nat = Some S754_nan.
Proof.
  intros a b c.
  assert (divisors_nonzero a) as Hnz by (repeat constructor).
  split; [reflexivity|]. split; [reflexivity|]. split; [exact Hnz|].
  split; [reflexivity|]. split; [reflexivity|]. split; [reflexivity|].
  split; [vm_compute; reflexivity|].
  apply (negative_discriminant_gives_nan (fun _ => S754_zero false) a b c 1
           (F64.of_int 2) (F64.of_int 3) (F64.of_int 4));
    [reflexivity | reflexivity | exact Hnz | reflexivity | reflexivity
    | reflexivity | vm_compute; reflexivity].
Defined.

(** X11.  Where [a[i]] is zero the two versions part: the array formula
    returns an array whose cell [i] is an infinity or [nan], the compiled
    loop raises [ZeroDivisionError] and returns nothing. *)
Theorem zero_coefficient_divides_by_zero uninit a b c (i : nat) s :
  length b = length a -> length c = length a ->
  a !! i = Some (S754_zero s : F64.t) ->
  quadratic_formula_numba uninit a b c = inl ZeroDivisionError /\
  exists out v,
    quadratic_formula a b c = inr out /\
    out !! i = Some v /\ F64.is_finite v = false.
Proof.
  intros Hb Hc Ha.
  pose proof (lookup_lt_Some _ _ _ Ha) as Hi.
  split.
  - unfold quadratic_formula_numba. cbv zeta.
    apply (quadratic_loop_zero_divisor _ _ _ _ _ i s);
      rewrite ?length_np_empty.
    + done.
    + by rewrite Hb.
    + by rewrite Hc.
    + apply range_in_bounds.
    + apply range_elem_nat. exact Hi.
    + exact Ha.
  - destruct (quadratic_formula_cells a b c Hb Hc) as (out & Hrun & Hlen & Hcells).
    destruct (lookup_lt_is_Some_2 b i) as [bi Hbi]; [rewrite Hb; exact Hi|].
    destruct (lookup_lt_is_Some_2 c i) as [ci Hci]; [rewrite Hc; exact Hi|].
    exists out, (quadratic_element (S754_zero s) bi ci).
    split; [exact Hrun|]. split.
    + rewrite Hcells. by apply quadratic_cell_Some.
    + apply quadratic_element_zero_divisor.
Qed.

Lemma zero_coefficient_divides_by_zero_witness :
  let a := [F64.of_int 1; S754_zero true] in
  let b := [F64.of_int 5; F64.of_int 3] in
  let c := [F64.of_int 1; F64.of_int 4] in
  length b = length a /\ length c = length a /\
  a !! 1%nat = Some (S754_zero true : F64.t) /\
  quadratic_formula_numba (fun _ => S754_nan) a b c = inl ZeroDivisionError /\
  exists out v,
    quadratic_formula a b c = inr out /\
    out !! 1%nat = Some v /\ F64.is_finite v = false.
Proof.
  intros a b c.
  split; [reflexivity|]. split; [reflexivity|]. split; [reflexivity|].
  apply (zero_coefficient_divides_by_zero (fun _ => S754_nan) a b c 1 true);
    reflexivity.
Defined.

(** X12.  With [b] longer than [a], both longer than 1, the array formula
    raises [ValueError], the operands cannot be broadcast together; the
    compiled loop takes its length from [a] alone and returns the formula
    on the first [len(a)] cells of [b] and [c]. *)
Theorem longer_operands_accepted_by_loop uninit a b c :
  (1 < length a)%nat -> (length a < length b)%nat -> (length a <= length c)%nat ->
  divisors_nonzero a ->
  quadratic_formula a b c = inl ValueError /\
  exists out,
    quadratic_formula_numba uninit a b c = inr out /\
    length out = length a /\
    forall j ai bi ci,
      a !! j = Some ai -> b !! j = Some bi -> c !! j = Some ci ->
      out !! j = Some (quadratic_element ai bi ci).
Proof.
  intros Ha Hb Hc Hnz. split.
  - apply quadratic_formula_mismatch; lia.
  - destruct (quadratic_parallel_cells uninit (range (Z.of_nat (length a))) a b c)
      as (out & Hrun & Hlen & Hcells); [lia|lia|done|done|].
    exists out. split; [exact Hrun|]. split; [exact Hlen|].
    intros j ai bi ci Haj Hbj Hcj.
    rewrite Hcells by (by apply lookup_lt_Some in Haj).
    by apply quadratic_cell_Some.
Qed.

Lemma longer_operands_accepted_by_loop_witness :
  let a := [F64.of_int 1; F64.of_int 2] in
  let b := [F64.of_int 5; F64.of_int 3; F64.of_int 7] in
  let c := [F64.of_int 1; F64.of_int 4] in
  (1 < length a)%nat /\ (length a < length b)%nat /\ (length a <= length c)%nat /\
  divisors_nonzero a /\
  quadratic_formula a b c = inl ValueError /\
  exists out,
    quadratic_formula_numba (fun _ => S754_nan) a b c = inr out /\
    length out = length a /\
    forall j ai bi ci,
      a !! j = Some ai -> b !! j = Some bi -> c !! j = Some ci ->
      out !! j = Some (quadratic_element ai bi ci).
Proof.
  intros a b c.
  assert (divisors_nonzero a) as Hnz by (repeat constructor).
  split; [simpl; lia|]. split; [simpl; lia|]. split; [simpl; lia|].
  split; [exact Hnz|].
  apply (longer_operands_accepted_by_loop (fun _ => S754_nan) a b c);
    [simpl; lia | simpl; lia | simpl; lia | exact Hnz].
Defined.

(** X13.  A compiled [accumulate] reads the global [do_sum] once for each
    signature, at the first call with it: in any sequence of assignments
    to [do_sum] and calls, starting with nothing compiled, every call
    returns what the body returns for the value [do_sum] had at the first
    call with the same signature, whatever it is assigned afterwards. *)
Theorem accumulate_uses_first_value {K : Type} `{EqDecision K}
    (signature : list F64.t -> K) (np_sum np_prod : list F64.t -> F64.t)
    (script : list statement) (d : bool) :
  (run_script signature np_sum np_prod script (JitState d (fun _ => None))).1 =
  frozen_results signature np_sum np_prod (first_value signature script d) script.
Proof.
  apply run_script_frozen. intros k. right. split; reflexivity.
Qed.
